(** * RegexpTokenizer: a shallow embedding of [lib/nltk/tokenize/regexp.py]

    The tokenizer is a thin layer over Python's [re] module: [tokenize] is
    [findall] or [split] of a lazily compiled pattern, [span_tokenize] is
    [finditer] or [regexp_span_tokenize].

    [re] belongs to Python, not to the repository.  The repository is
    Python 2 code ([main.py] calls [unicode]), so [re] is modelled as the
    Python 2.7 engine: a backtracking matcher with leftmost,
    first-alternative, greedy-first resolution, and the scanning loops of
    [_sre.c] ([pattern_findall], [pattern_split], [scanner_search]).  Text
    is a sequence of code points below 256.

    A loop of the engine is a recursion on fuel, one unit for each turn of
    the loop; running out of fuel is the outcome [Diverges], which is
    proved never to happen. *)

From Stdlib Require Import String Ascii ZArith Lia Bool Arith PeanoNat List.
Import ListNotations.

Local Open Scope list_scope.
Local Open Scope nat_scope.

(** ** Python values and outcomes *)

Definition text := list ascii.

(** The values [findall] and [split] put in their result lists. *)
Inductive pyval : Type :=
| PyNone
| PyStr (s : string)
| PyTuple (items : list string).

(** [re.error] (the spec's PatternError), and a marker for pattern syntax
    that this model of [re] does not cover. *)
Inductive exn : Type :=
| re_error (msg : string)
| not_modelled (what : string).

(** What a call does: it returns, it raises, or its loop never ends. *)
Inductive outcome (A : Type) : Type :=
| Returns (a : A)
| Raises (e : exn)
| Diverges.

Arguments Returns {A} a.
Arguments Raises {A} e.
Arguments Diverges {A}.

Definition obind {A B : Type} (o : outcome A) (f : A -> outcome B) : outcome B :=
  match o with
  | Returns a => f a
  | Raises e => Raises e
  | Diverges => Diverges
  end.

Definition returns {A : Type} (o : outcome A) : bool :=
  match o with
  | Returns _ => true
  | _ => false
  end.

(** Python's [text[i:j]] for [0 <= i], [0 <= j]. *)
Definition slice (s : text) (i j : nat) : text := firstn (j - i) (skipn i s).

Definition str (s : text) : string := string_of_list_ascii s.
Definition chars (s : string) : text := list_ascii_of_string s.

(** Python's truth value of a token: [None], [''] and [()] are false. *)
Definition truthy (v : pyval) : bool :=
  match v with
  | PyNone => false
  | PyStr EmptyString => false
  | PyStr _ => true
  | PyTuple [] => false
  | PyTuple _ => true
  end.

(** [sep.join(items)]. *)
Fixpoint join (sep : string) (items : list string) : string :=
  match items with
  | [] => EmptyString
  | [x] => x
  | x :: tl => (x ++ sep ++ join sep tl)%string
  end.

(** ** The [re] module *)

Module Re.

(** Flag bits, as in [sre_constants.py]. *)
Definition MULTILINE : Z := 8.
Definition DOTALL : Z := 16.
Definition UNICODE : Z := 32.

Definition has_flag (flags f : Z) : bool := negb (Z.land flags f =? 0)%Z.

Inductive category : Type := DIGIT | SPACE | WORD.

Definition code_in (n lo hi : nat) : bool := (lo <=? n) && (n <=? hi).

Definition is_digit (c : ascii) : bool := code_in (nat_of_ascii c) 48 57.

Definition is_alpha (c : ascii) : bool :=
  let n := nat_of_ascii c in code_in n 65 90 || code_in n 97 122.

(** [SRE_IS_SPACE]: tab, newline, vertical tab, form feed, return, space. *)
Definition is_space (c : ascii) : bool :=
  let n := nat_of_ascii c in code_in n 9 13 || (n =? 32).

(** [SRE_IS_WORD]: ASCII letters, digits and underscore. *)
Definition is_word (c : ascii) : bool :=
  is_alpha c || is_digit c || (nat_of_ascii c =? 95).

(** [Py_UNICODE_ISSPACE] below 256. *)
Definition is_uni_space (c : ascii) : bool :=
  let n := nat_of_ascii c in
  is_space c || code_in n 28 31 || (n =? 133) || (n =? 160).

(** [Py_UNICODE_ISALNUM] or underscore, below 256. *)
Definition is_uni_word (c : ascii) : bool :=
  let n := nat_of_ascii c in
  is_word c || (n =? 170) || code_in n 178 179 || (n =? 181)
  || code_in n 185 186 || code_in n 188 190 || code_in n 192 214
  || code_in n 216 246 || code_in n 248 255.

Definition in_category (uni : bool) (k : category) (c : ascii) : bool :=
  match k with
  | DIGIT => is_digit c
  | SPACE => if uni then is_uni_space c else is_space c
  | WORD => if uni then is_uni_word c else is_word c
  end.

(** Members of a bracketed set. *)
Inductive set_item : Type :=
| SET_LITERAL (c : ascii)
| SET_RANGE (lo hi : ascii)
| SET_CATEGORY (uni negate : bool) (k : category).

Definition in_item (c : ascii) (i : set_item) : bool :=
  match i with
  | SET_LITERAL x => Ascii.eqb c x
  | SET_RANGE lo hi => code_in (nat_of_ascii c) (nat_of_ascii lo) (nat_of_ascii hi)
  | SET_CATEGORY uni negate k => xorb negate (in_category uni k c)
  end.

(** The compiled code of a pattern.  [r+] is [SEQ r (MAX_STAR r)], [r?] is
    [BRANCH r EMPTY]; the lazy forms use [MIN_STAR] and the swapped
    branch. *)
Inductive regex : Type :=
| EMPTY
| LITERAL (c : ascii)
| ANY
| ANY_ALL
| IN (negate : bool) (items : list set_item)
| AT_BEGINNING
| AT_BEGINNING_LINE
| AT_END
| AT_END_LINE
| SEQ (r1 r2 : regex)
| BRANCH (r1 r2 : regex)
| MAX_STAR (r : regex)
| MIN_STAR (r : regex)
| SUBPATTERN (group : nat) (r : regex).

(** *** The matcher *)

(** The state of one match attempt: the offset, the character before it,
    the text from it on, and the group marks set so far. *)
Record state : Type := mkstate {
  pos : nat;
  prev : option ascii;
  rest : text;
  marks : list (nat * (nat * nat))
}.

Definition cont : Type := state -> option state.

Definition newline : ascii := ascii_of_nat 10.

Definition advance (c : ascii) (tl : text) (st : state) : state :=
  mkstate (S (pos st)) (Some c) tl (marks st).

Definition match_char (p : ascii -> bool) (st : state) (k : cont) : option state :=
  match rest st with
  | c :: tl => if p c then k (advance c tl st) else None
  | [] => None
  end.

Definition at_beginning_line (st : state) : bool :=
  match prev st with
  | None => true
  | Some c => Ascii.eqb c newline
  end.

Definition at_end (st : state) : bool :=
  match rest st with
  | [] => true
  | [c] => Ascii.eqb c newline
  | _ => false
  end.

Definition at_end_line (st : state) : bool :=
  match rest st with
  | [] => true
  | c :: _ => Ascii.eqb c newline
  end.

Definition set_mark (g i j : nat) (st : state) : state :=
  mkstate (pos st) (prev st) (rest st) ((g, (i, j)) :: marks st).

Definition orelse {A : Type} (a b : option A) : option A :=
  match a with
  | Some x => Some x
  | None => b
  end.

(** Greedy repetition ([MAX_UNTIL]): one more item first, the tail second.
    An item that consumed nothing ends the repetition. *)
Fixpoint repeat_max (body : state -> cont -> option state) (n : nat)
  (st : state) (k : cont) : option state :=
  match n with
  | 0 => k st
  | S n' =>
      orelse
        (body st (fun st' =>
           if pos st <? pos st' then repeat_max body n' st' k else k st'))
        (k st)
  end.

(** Lazy repetition ([MIN_UNTIL]): the tail first, one more item second. *)
Fixpoint repeat_min (body : state -> cont -> option state) (n : nat)
  (st : state) (k : cont) : option state :=
  match n with
  | 0 => k st
  | S n' =>
      orelse
        (k st)
        (body st (fun st' =>
           if pos st <? pos st' then repeat_min body n' st' k else None))
  end.

Fixpoint sre_match (r : regex) (st : state) (k : cont) {struct r} : option state :=
  match r with
  | EMPTY => k st
  | LITERAL c => match_char (Ascii.eqb c) st k
  | ANY => match_char (fun c => negb (Ascii.eqb c newline)) st k
  | ANY_ALL => match_char (fun _ => true) st k
  | IN negate items =>
      match_char (fun c => xorb negate (existsb (in_item c) items)) st k
  | AT_BEGINNING => if pos st =? 0 then k st else None
  | AT_BEGINNING_LINE => if at_beginning_line st then k st else None
  | AT_END => if at_end st then k st else None
  | AT_END_LINE => if at_end_line st then k st else None
  | SEQ r1 r2 => sre_match r1 st (fun st' => sre_match r2 st' k)
  | BRANCH r1 r2 => orelse (sre_match r1 st k) (sre_match r2 st k)
  | MAX_STAR r' => repeat_max (sre_match r') (S (length (rest st))) st k
  | MIN_STAR r' => repeat_min (sre_match r') (S (length (rest st))) st k
  | SUBPATTERN g r' =>
      sre_match r' st (fun st' => k (set_mark g (pos st) (pos st') st'))
  end.

(** A match object: the span of the whole match and the group marks. *)
Record SRE_Match : Type := mkmatch {
  m_start : nat;
  m_end : nat;
  m_marks : list (nat * (nat * nat))
}.

Definition span (m : SRE_Match) : nat * nat := (m_start m, m_end m).

(** [SRE_SEARCH]: try each offset from the current one up to the end. *)
Fixpoint search_from (r : regex) (p : nat) (pv : option ascii) (s : text)
  {struct s} : option SRE_Match :=
  match sre_match r (mkstate p pv s []) (fun st => Some st) with
  | Some e => Some (mkmatch p (pos e) (marks e))
  | None =>
      match s with
      | [] => None
      | c :: tl => search_from r (S p) (Some c) tl
      end
  end.

Definition char_before (s : text) (p : nat) : option ascii :=
  match p with
  | 0 => None
  | S q => nth_error s q
  end.

Definition sre_search (r : regex) (s : text) (p : nat) : option SRE_Match :=
  if p <=? length s then search_from r p (char_before s p) (skipn p s)
  else None.

(** *** The pattern parser

    The fragment of the pattern syntax covered: literals, [.], [^], [$],
    the escapes [\d \D \s \S \w \W \n \t \r \f \v \a] and escaped
    punctuation, bracketed sets with ranges and negation, [|], capturing
    and [(?:...)] groups, and the quantifiers [* + ?] with their lazy
    forms.  Other syntax is reported as [not_modelled]. *)

Inductive quantifier : Type := Q_STAR | Q_PLUS | Q_OPT.

Inductive token : Type :=
| T_ATOM (r : regex)
| T_AT (r : regex)
| T_OPEN (capturing : bool)
| T_CLOSE
| T_BAR
| T_REPEAT (q : quantifier).

Inductive lex_mode : Type :=
| IN_PATTERN
| IN_SET (negate : bool) (acc : list set_item).

Definition is_char (c : ascii) (s : string) : bool :=
  match s with
  | String x EmptyString => Ascii.eqb c x
  | _ => false
  end.

(** Escapes that stand for one character. *)
Definition escape_char (e : ascii) : option ascii :=
  if is_char e "n" then Some newline
  else if is_char e "t" then Some (ascii_of_nat 9)
  else if is_char e "r" then Some (ascii_of_nat 13)
  else if is_char e "f" then Some (ascii_of_nat 12)
  else if is_char e "v" then Some (ascii_of_nat 11)
  else if is_char e "a" then Some (ascii_of_nat 7)
  else None.

(** Escapes that stand for a category: the category and its negation. *)
Definition escape_category (e : ascii) : option (bool * category) :=
  if is_char e "d" then Some (false, DIGIT)
  else if is_char e "D" then Some (true, DIGIT)
  else if is_char e "s" then Some (false, SPACE)
  else if is_char e "S" then Some (true, SPACE)
  else if is_char e "w" then Some (false, WORD)
  else if is_char e "W" then Some (true, WORD)
  else None.

(** The set item of the escape [\e]; inside a set [\b] is a backspace. *)
Definition escape_item (in_set uni : bool) (e : ascii) : exn + set_item :=
  match escape_category e with
  | Some (negate, k) => inr (SET_CATEGORY uni negate k)
  | None =>
      match escape_char e with
      | Some c => inr (SET_LITERAL c)
      | None =>
          if is_digit e || is_char e "x" then
            inl (not_modelled "numeric escape")
          else if in_set && is_char e "b" then inr (SET_LITERAL (ascii_of_nat 8))
          else if negb in_set
                  && (is_char e "A" || is_char e "Z" || is_char e "b" || is_char e "B")
          then inl (not_modelled "boundary escape")
          else inr (SET_LITERAL e)
      end
  end.

Definition atom_of_item (i : set_item) : regex :=
  match i with
  | SET_LITERAL c => LITERAL c
  | _ => IN false [i]
  end.

(** True when [p] starts with [-] followed by something other than []]:
    the item before it would be the low end of a range. *)
Definition range_follows (p : text) : bool :=
  match p with
  | d :: hi :: _ => is_char d "-" && negb (is_char hi "]")
  | _ => false
  end.

Fixpoint lex (fl : Z) (mode : lex_mode) (acc : list token) (p : text)
  {struct p} : exn + list token :=
  match p with
  | [] =>
      match mode with
      | IN_PATTERN => inr (rev acc)
      | IN_SET _ _ => inl (re_error "unexpected end of regular expression")
      end
  | c :: tl =>
      match mode with
      | IN_PATTERN =>
          if is_char c "\" then
            match tl with
            | [] => inl (re_error "bogus escape (end of line)")
            | e :: tl' =>
                match escape_item false (has_flag fl UNICODE) e with
                | inl x => inl x
                | inr i => lex fl IN_PATTERN (T_ATOM (atom_of_item i) :: acc) tl'
                end
            end
          else if is_char c "[" then
            match tl with
            | c2 :: tl' =>
                if is_char c2 "^" then lex fl (IN_SET true []) acc tl'
                else lex fl (IN_SET false []) acc tl
            | [] => lex fl (IN_SET false []) acc tl
            end
          else if is_char c "(" then
            match tl with
            | q :: tl' =>
                if is_char q "?" then
                  match tl' with
                  | [] => inl (re_error "unexpected end of pattern")
                  | x :: tl'' =>
                      if is_char x ":" then lex fl IN_PATTERN (T_OPEN false :: acc) tl''
                      else inl (not_modelled "group extension")
                  end
                else lex fl IN_PATTERN (T_OPEN true :: acc) tl
            | [] => lex fl IN_PATTERN (T_OPEN true :: acc) tl
            end
          else if is_char c ")" then lex fl IN_PATTERN (T_CLOSE :: acc) tl
          else if is_char c "|" then lex fl IN_PATTERN (T_BAR :: acc) tl
          else if is_char c "*" then lex fl IN_PATTERN (T_REPEAT Q_STAR :: acc) tl
          else if is_char c "+" then lex fl IN_PATTERN (T_REPEAT Q_PLUS :: acc) tl
          else if is_char c "?" then lex fl IN_PATTERN (T_REPEAT Q_OPT :: acc) tl
          else if is_char c "{" then inl (not_modelled "counted repetition")
          else if is_char c "." then
            lex fl IN_PATTERN
              (T_ATOM (if has_flag fl DOTALL then ANY_ALL else ANY) :: acc) tl
          else if is_char c "^" then
            lex fl IN_PATTERN
              (T_AT (if has_flag fl MULTILINE then AT_BEGINNING_LINE else AT_BEGINNING)
                 :: acc) tl
          else if is_char c "$" then
            lex fl IN_PATTERN
              (T_AT (if has_flag fl MULTILINE then AT_END_LINE else AT_END) :: acc) tl
          else lex fl IN_PATTERN (T_ATOM (LITERAL c) :: acc) tl
      | IN_SET negate items =>
          if is_char c "]" && negb (match items with [] => true | _ => false end) then
            lex fl IN_PATTERN (T_ATOM (IN negate (rev items)) :: acc) tl
          else if is_char c "\" then
            match tl with
            | [] => inl (re_error "bogus escape (end of line)")
            | e :: tl' =>
                if range_follows tl' then inl (not_modelled "escape in a range")
                else
                  match escape_item true (has_flag fl UNICODE) e with
                  | inl x => inl x
                  | inr i => lex fl (IN_SET negate (i :: items)) acc tl'
                  end
            end
          else
            match tl with
            | d :: hi :: tl'' =>
                if is_char d "-" && negb (is_char hi "]") then
                  if is_char hi "\" then inl (not_modelled "escape in a range")
                  else if nat_of_ascii hi <? nat_of_ascii c then
                    inl (re_error "bad character range")
                  else lex fl (IN_SET negate (SET_RANGE c hi :: items)) acc tl''
                else lex fl (IN_SET negate (SET_LITERAL c :: items)) acc tl
            | _ => lex fl (IN_SET negate (SET_LITERAL c :: items)) acc tl
            end
      end
  end.

(** What the last item of a sequence is, for the quantifier checks. *)
Inductive item_kind : Type := K_PLAIN | K_AT | K_REPEAT.

(** An open group (or the top level): its number when it captures, the
    alternatives already closed by [|] and the items of the current one,
    both latest first. *)
Record frame : Type := mkframe {
  f_group : option nat;
  f_alts : list regex;
  f_items : list (regex * item_kind)
}.

Fixpoint mk_seq (l : list regex) : regex :=
  match l with
  | [] => EMPTY
  | [r] => r
  | r :: tl => SEQ r (mk_seq tl)
  end.

Fixpoint mk_branch (l : list regex) : regex :=
  match l with
  | [] => EMPTY
  | [r] => r
  | r :: tl => BRANCH r (mk_branch tl)
  end.

Definition current_alt (f : frame) : regex := mk_seq (rev (map fst (f_items f))).

Definition close_frame (f : frame) : regex :=
  let body := mk_branch (rev (current_alt f :: f_alts f)) in
  match f_group f with
  | Some g => SUBPATTERN g body
  | None => body
  end.

Definition push_item (i : regex * item_kind) (f : frame) : frame :=
  mkframe (f_group f) (f_alts f) (i :: f_items f).

Definition repeat_item (q : quantifier) (lazy : bool) (r : regex) : regex :=
  match q, lazy with
  | Q_STAR, false => MAX_STAR r
  | Q_STAR, true => MIN_STAR r
  | Q_PLUS, false => SEQ r (MAX_STAR r)
  | Q_PLUS, true => SEQ r (MIN_STAR r)
  | Q_OPT, false => BRANCH r EMPTY
  | Q_OPT, true => BRANCH EMPTY r
  end.

Fixpoint parse (ts : list token) (stack : list frame) (cur : frame)
  (ngroups : nat) {struct ts} : exn + (regex * nat) :=
  match ts with
  | [] =>
      match stack with
      | [] => inr (close_frame cur, ngroups)
      | _ :: _ => inl (re_error "unbalanced parenthesis")
      end
  | T_ATOM r :: ts' => parse ts' stack (push_item (r, K_PLAIN) cur) ngroups
  | T_AT r :: ts' => parse ts' stack (push_item (r, K_AT) cur) ngroups
  | T_OPEN true :: ts' =>
      parse ts' (cur :: stack) (mkframe (Some (S ngroups)) [] []) (S ngroups)
  | T_OPEN false :: ts' => parse ts' (cur :: stack) (mkframe None [] []) ngroups
  | T_CLOSE :: ts' =>
      match stack with
      | [] => inl (re_error "unbalanced parenthesis")
      | parent :: stack' =>
          parse ts' stack' (push_item (close_frame cur, K_PLAIN) parent) ngroups
      end
  | T_BAR :: ts' =>
      parse ts' stack (mkframe (f_group cur) (current_alt cur :: f_alts cur) [])
        ngroups
  | T_REPEAT q :: ts' =>
      match f_items cur with
      | [] => inl (re_error "nothing to repeat")
      | (_, K_AT) :: _ => inl (re_error "nothing to repeat")
      | (_, K_REPEAT) :: _ => inl (re_error "multiple repeat")
      | (r, K_PLAIN) :: items =>
          match ts' with
          | T_REPEAT Q_OPT :: ts'' =>
              parse ts'' stack
                (mkframe (f_group cur) (f_alts cur)
                   ((repeat_item q true r, K_REPEAT) :: items)) ngroups
          | _ =>
              parse ts' stack
                (mkframe (f_group cur) (f_alts cur)
                   ((repeat_item q false r, K_REPEAT) :: items)) ngroups
          end
      end
  end.

(** A compiled pattern object. *)
Record SRE_Pattern : Type := mkpattern {
  pattern : string;
  flags : Z;
  groups : nat;
  code : regex
}.

(** [re.compile(pattern, flags)]. *)
Definition compile (p : string) (fl : Z) : exn + SRE_Pattern :=
  match lex fl IN_PATTERN [] (chars p) with
  | inl e => inl e
  | inr ts =>
      match parse ts [] (mkframe None [] []) 0 with
      | inl e => inl e
      | inr (r, n) => inr (mkpattern p fl n r)
      end
  end.

(** *** The scanning loops of [_sre.c] *)

(** The span of group [g] in a match, when the group took part in it. *)
Fixpoint lookup_mark (g : nat) (ms : list (nat * (nat * nat))) : option (nat * nat) :=
  match ms with
  | [] => None
  | (g', sp) :: tl => if g =? g' then Some sp else lookup_mark g tl
  end.

(** [state_getslice(state, g, string, empty)]: the text of group [g];
    for a group that took no part, [''] when [empty] and [None] otherwise. *)
Definition getslice (s : text) (m : SRE_Match) (empty : bool) (g : nat) : pyval :=
  match lookup_mark g (m_marks m) with
  | Some (i, j) => PyStr (str (slice s i j))
  | None => if empty then PyStr EmptyString else PyNone
  end.

Definition group_string (s : text) (m : SRE_Match) (g : nat) : string :=
  match lookup_mark g (m_marks m) with
  | Some (i, j) => str (slice s i j)
  | None => EmptyString
  end.

(** Where the next search starts: at the end of the match, one further
    after an empty match. *)
Definition next_start (m : SRE_Match) : nat :=
  if m_end m =? m_start m then S (m_end m) else m_end m.

(** The item [pattern_findall] appends for a match: the whole match when
    the pattern has no group, the group when it has one, the tuple of all
    groups when it has several. *)
Definition findall_item (p : SRE_Pattern) (s : text) (m : SRE_Match) : pyval :=
  match groups p with
  | 0 => PyStr (str (slice s (m_start m) (m_end m)))
  | 1 => PyStr (group_string s m 1)
  | n => PyTuple (map (group_string s m) (seq 1 n))
  end.

(** [pattern_findall]: [while (state.start <= state.end)]. *)
Fixpoint findall_loop (fuel : nat) (p : SRE_Pattern) (s : text) (start : nat)
  : outcome (list pyval) :=
  match fuel with
  | 0 => Diverges
  | S fuel' =>
      if start <=? length s then
        match sre_search (code p) s start with
        | None => Returns []
        | Some m =>
            obind (findall_loop fuel' p s (next_start m))
              (fun tl => Returns (findall_item p s m :: tl))
        end
      else Returns []
  end.

Definition findall (p : SRE_Pattern) (s : text) : outcome (list pyval) :=
  findall_loop (S (S (length s))) p s 0.

(** [pattern_finditer]: [scanner_search] called until it finds nothing. *)
Fixpoint finditer_loop (fuel : nat) (p : SRE_Pattern) (s : text) (start : nat)
  : outcome (list SRE_Match) :=
  match fuel with
  | 0 => Diverges
  | S fuel' =>
      match sre_search (code p) s start with
      | None => Returns []
      | Some m =>
          obind (finditer_loop fuel' p s (next_start m))
            (fun tl => Returns (m :: tl))
      end
  end.

Definition finditer (p : SRE_Pattern) (s : text) : outcome (list SRE_Match) :=
  finditer_loop (S (S (length s))) p s 0.

(** [pattern_split] without [maxsplit]: an empty match splits nothing and
    is stepped over; after a non-empty match the piece before it and the
    groups of the match are appended. *)
Fixpoint split_loop (fuel : nat) (p : SRE_Pattern) (s : text) (start last : nat)
  : outcome (list pyval) :=
  match fuel with
  | 0 => Diverges
  | S fuel' =>
      match sre_search (code p) s start with
      | None => Returns [PyStr (str (slice s last (length s)))]
      | Some m =>
          if m_start m =? m_end m then
            if last =? length s then Returns [PyStr (str (slice s last (length s)))]
            else split_loop fuel' p s (S (m_end m)) last
          else
            obind (split_loop fuel' p s (m_end m) (m_end m))
              (fun tl =>
                 Returns (PyStr (str (slice s last (m_start m)))
                          :: map (getslice s m false) (seq 1 (groups p)) ++ tl))
      end
  end.

Definition split (p : SRE_Pattern) (s : text) : outcome (list pyval) :=
  split_loop (S (S (length s))) p s 0 0.

End Re.

(** ** [nltk.tokenize.util] *)

(** Modelled from the spec: [regexp_span_tokenize] of
    [nltk/tokenize/util.py], which [span_tokenize] calls in gap mode.  A
    cursor starts at 0; each separator match yields the span from the
    cursor to the start of the match and moves the cursor to its end;
    after the last match the span from the cursor to the end of the text
    is yielded. *)
Fixpoint gap_spans (left : nat) (ms : list Re.SRE_Match) (len : nat) : list (nat * nat) :=
  match ms with
  | [] => [(left, len)]
  | m :: tl => (left, Re.m_start m) :: gap_spans (Re.m_end m) tl len
  end.

Definition regexp_span_tokenize (s : text) (regexp : Re.SRE_Pattern)
  : outcome (list (nat * nat)) :=
  obind (Re.finditer regexp s) (fun ms => Returns (gap_spans 0 ms (length s))).

(** ** [RegexpTokenizer] *)

(** The argument [pattern] of the constructor: a string, or an object with
    a [pattern] attribute such as a compiled pattern. *)
Inductive pattern_arg : Type :=
| PatternStr (s : string)
| PatternObject (p : Re.SRE_Pattern).

(** [getattr(pattern, 'pattern', pattern)]. *)
Definition getattr_pattern (a : pattern_arg) : string :=
  match a with
  | PatternStr s => s
  | PatternObject p => Re.pattern p
  end.

Record RegexpTokenizer : Type := mkRegexpTokenizer {
  _pattern : string;
  _gaps : bool;
  _discard_empty : bool;
  _flags : Z;
  _regexp : option Re.SRE_Pattern
}.

(** [re.UNICODE | re.MULTILINE | re.DOTALL]. *)
Definition default_flags : Z := Z.lor (Z.lor Re.UNICODE Re.MULTILINE) Re.DOTALL.

Definition __init__ (pattern : pattern_arg) (gaps discard_empty : bool) (flags : Z)
  : RegexpTokenizer :=
  let pattern := getattr_pattern pattern in
  mkRegexpTokenizer pattern gaps discard_empty flags None.

(** A method: from the object to what the call does and the object after. *)
Definition method (A : Type) : Type := RegexpTokenizer -> outcome A * RegexpTokenizer.

Definition ret {A : Type} (a : A) : method A := fun self => (Returns a, self).

Definition lift {A : Type} (o : outcome A) : method A := fun self => (o, self).

Definition bind {A B : Type} (m : method A) (f : A -> method B) : method B :=
  fun self =>
    match m self with
    | (Returns a, self') => f a self'
    | (Raises e, self') => (Raises e, self')
    | (Diverges, self') => (Diverges, self')
    end.

Notation "x <- m ;; f" := (bind m (fun x => f))
  (at level 61, m at next level, right associativity).

(** [_check_regexp]: compiles the pattern at the first use and keeps it.
    [re.compile] is called with the pattern alone. *)
Definition _check_regexp : method Re.SRE_Pattern := fun self =>
  match _regexp self with
  | Some c => (Returns c, self)
  | None =>
      match Re.compile (_pattern self) 0 with
      | inl e => (Raises e, self)
      | inr c =>
          (Returns c,
           mkRegexpTokenizer (_pattern self) (_gaps self) (_discard_empty self)
             (_flags self) (Some c))
      end
  end.

Definition tokenize (txt : string) : method (list pyval) :=
  regexp <- _check_regexp ;;
  fun self =>
    if _gaps self then
      if _discard_empty self then
        (obind (Re.split regexp (chars txt)) (fun toks => Returns (filter truthy toks)),
         self)
      else (Re.split regexp (chars txt), self)
    else (Re.findall regexp (chars txt), self).

(** [span_tokenize] is a generator; the model is the list of what it
    yields when it is run to its end. *)
Definition span_tokenize (txt : string) : method (list (nat * nat)) :=
  regexp <- _check_regexp ;;
  fun self =>
    if _gaps self then
      (obind (regexp_span_tokenize (chars txt) regexp)
         (fun spans =>
            Returns
              (filter (fun '(l, r) => negb (_discard_empty self && (l =? r)))
                 spans)),
       self)
    else (obind (Re.finditer regexp (chars txt)) (fun ms => Returns (map Re.span ms)),
          self).

(** The presets. *)
Definition WhitespaceTokenizer : RegexpTokenizer :=
  __init__ (PatternStr "\s+") true true default_flags.

Definition BlanklineTokenizer : RegexpTokenizer :=
  __init__ (PatternStr "\s*\n\s*\n\s*") true true default_flags.

Definition WordPunctTokenizer : RegexpTokenizer :=
  __init__ (PatternStr "\w+|[^\w\s]+") false true default_flags.


(** The slices [text[s:e]] of a list of spans, as tokens. *)
Definition slices (txt : string) (spans : list (nat * nat)) : list pyval :=
  map (fun '(s, e) => PyStr (str (slice (chars txt) s e))) spans.

(** ** Runs of calls on one tokenizer *)

Inductive call : Type :=
| Tokenize (txt : string)
| SpanTokenize (txt : string).

Inductive result : Type :=
| Tokens (toks : list pyval)
| Spans (spans : list (nat * nat)).

Definition omap {A B : Type} (f : A -> B) (o : outcome A) : outcome B :=
  obind o (fun a => Returns (f a)).

Definition perform (c : call) : method result := fun self =>
  match c with
  | Tokenize txt => let '(o, self') := tokenize txt self in (omap Tokens o, self')
  | SpanTokenize txt => let '(o, self') := span_tokenize txt self in (omap Spans o, self')
  end.

(** The outcomes of a list of calls made one after the other. *)
Fixpoint perform_all (cs : list call) (self : RegexpTokenizer) : list (outcome result) :=
  match cs with
  | [] => []
  | c :: tl => let '(o, self') := perform c self in o :: perform_all tl self'
  end.

(** ** Splitting on whitespace, directly *)

(** The words of a text: its maximal runs of characters that are not
    whitespace.  [cur] is the word being read, latest character first. *)
Fixpoint words (cur : text) (s : text) : list text :=
  match s with
  | [] => match cur with [] => [] | _ => [rev cur] end
  | c :: tl =>
      if Re.is_space c then
        match cur with
        | [] => words [] tl
        | _ => rev cur :: words [] tl
        end
      else words (c :: cur) tl
  end.

(** The number of whitespace characters [s] starts with. *)
Fixpoint space_run (s : text) : nat :=
  match s with
  | c :: tl => if Re.is_space c then S (space_run tl) else 0
  | [] => 0
  end.

(** The number of characters of [s] before its first whitespace. *)
Fixpoint word_run (s : text) : nat :=
  match s with
  | c :: tl => if Re.is_space c then 0 else S (word_run tl)
  | [] => 0
  end.

Definition space : ascii := ascii_of_nat 32.

(** The words joined by single spaces, as a list of characters. *)
Fixpoint unwords (ws : list text) : text :=
  match ws with
  | [] => []
  | [w] => w
  | w :: tl => w ++ space :: unwords tl
  end.

Definition is_word_text (w : text) : bool :=
  negb (match w with [] => true | _ => false end) && forallb (fun c => negb (Re.is_space c)) w.

(** The code [re.compile] produces for the pattern of the whitespace
    preset. *)
Definition space_code : Re.regex := Re.IN false [Re.SET_CATEGORY false false Re.SPACE].

Definition whitespace_code : Re.regex := Re.SEQ space_code (Re.MAX_STAR space_code).

Definition whitespace_pattern : Re.SRE_Pattern :=
  Re.mkpattern "\s+" 0 0 whitespace_code.

Definition token_of (w : text) : pyval := PyStr (str w).

(** A line feed, as a string. *)
Definition nl : string := String Re.newline EmptyString.

(** ** Vocabulary of the proofs *)

(** [reach st st']: [st'] is [st] moved forward inside the same text. *)
Definition reach (st st' : Re.state) : Prop :=
  Re.pos st <= Re.pos st' /\
  Re.pos st' + length (Re.rest st') = Re.pos st + length (Re.rest st).

(** A matcher is sound when it calls its continuation, if at all, on a
    state reached from its own. *)
Definition sound (body : Re.state -> Re.cont -> option Re.state) : Prop :=
  forall st k res, body st k = Some res -> exists st', reach st st' /\ k st' = Some res.

(** The list of a word, nothing for the empty one. *)
Definition one_word (w : text) : list text :=
  match w with
  | [] => []
  | _ => [w]
  end.

(** The whitespace preset, compiled or not yet. *)
Definition whitespace_tokenizer (compiled : bool) : RegexpTokenizer :=
  mkRegexpTokenizer "\s+" true true default_flags
    (if compiled then Some whitespace_pattern else None).

(** The matches [ms] lie one after the other in a text of length [len],
    from the offset [left] on. *)
Fixpoint in_order (left : nat) (ms : list Re.SRE_Match) (len : nat) : Prop :=
  match ms with
  | [] => left <= len
  | m :: tl =>
      left <= Re.m_start m /\ Re.m_start m <= Re.m_end m /\ in_order (Re.m_end m) tl len
  end.

(** The token of a span of [s]. *)
Definition span_token (s : text) (sp : nat * nat) : pyval :=
  PyStr (str (slice s (fst sp) (snd sp))).

(** ** The functions of the module

    [blankline_tokenize] and [wordpunct_tokenize] are the [tokenize]
    methods of two tokenizers made when the module is loaded: every call
    works on that one object and leaves it to the next call. *)

Record module_state : Type := mkmodule {
  blankline_instance : RegexpTokenizer;
  wordpunct_instance : RegexpTokenizer
}.

Definition module_loaded : module_state :=
  mkmodule BlanklineTokenizer WordPunctTokenizer.

Definition blankline_tokenize (txt : string) (m : module_state)
  : outcome (list pyval) * module_state :=
  let '(o, t) := tokenize txt (blankline_instance m) in
  (o, mkmodule t (wordpunct_instance m)).

Definition wordpunct_tokenize (txt : string) (m : module_state)
  : outcome (list pyval) * module_state :=
  let '(o, t) := tokenize txt (wordpunct_instance m) in
  (o, mkmodule (blankline_instance m) t).

Inductive module_call : Type :=
| BlanklineTokenize (txt : string)
| WordpunctTokenize (txt : string).

Definition module_perform (c : module_call) (m : module_state)
  : outcome (list pyval) * module_state :=
  match c with
  | BlanklineTokenize txt => blankline_tokenize txt m
  | WordpunctTokenize txt => wordpunct_tokenize txt m
  end.

(** The module after a list of calls. *)
Fixpoint module_after (cs : list module_call) (m : module_state) : module_state :=
  match cs with
  | [] => m
  | c :: tl => module_after tl (snd (module_perform c m))
  end.

(** The tokenizer after a list of calls. *)
Fixpoint after (cs : list call) (self : RegexpTokenizer) : RegexpTokenizer :=
  match cs with
  | [] => self
  | c :: tl => after tl (snd (perform c self))
  end.

(** ** [main.py]

    The strings of [main.py] are given by their UTF-8 bytes; joining
    strings joins their bytes. *)

Module Main.

Definition quote : string := String (ascii_of_nat 34) EmptyString.

Definition reply_start : string :=
  ("<?xml version=" ++ quote ++ "1.0" ++ quote ++ " encoding=" ++ quote ++ "UTF-8"
   ++ quote ++ "?><Response><Sms>")%string.

Definition reply_end : string := "</Sms></Response>".

Definition lang_list : list string := ["en"; "zh"; "fr"]%string.

Definition bytes (codes : list nat) : string :=
  string_of_list_ascii (map ascii_of_nat codes).

Definition error_message : string :=
  ("sorry there's err, plz provide at least 3 chars" ++ nl
   ++ bytes [229; 135; 186; 233; 148; 153; 228; 186; 134] ++ ","
   ++ bytes [232; 175; 183; 230; 143; 144; 228; 190; 155; 232; 135; 179; 229; 176; 145]
   ++ "3" ++ bytes [228; 184; 170; 229; 173; 151])%string.

Definition get_xml_return (str : string) : string :=
  (reply_start ++ str ++ reply_end)%string.

(** What [blob.translate(to=lang)] does: it returns the translation, it
    raises [NotTranslated], or it raises something else. *)
Inductive translation : Type :=
| Translated (s : string)
| NotTranslated
| OtherException.

Section Translate.

(** [TextBlob(msg).translate(to=lang)], of the library [textblob]. *)
Variable blob_translate : string -> string -> translation.

(** The loop over [lang_list]: [s] grows by one line for each language;
    an exception other than [NotTranslated] leaves the loop. *)
Fixpoint translate_loop (msg : string) (langs : list string) (s : string)
  : option string :=
  match langs with
  | [] => Some s
  | lang :: tl =>
      match blob_translate msg lang with
      | Translated translated => translate_loop msg tl (s ++ (translated ++ nl))%string
      | NotTranslated => translate_loop msg tl (s ++ (msg ++ nl))%string
      | OtherException => None
      end
  end.

(** [translate]: [body] is [request.args.get('Body')], [None] when the
    request has no such argument; [unicode(None)] is the text [None]. *)
Definition translate (body : option string) : string :=
  let msg := match body with Some b => b | None => "None"%string end in
  match translate_loop msg lang_list nl with
  | Some s => get_xml_return s
  | None => get_xml_return error_message
  end.

(** The line of one language in the reply. *)
Definition reply_line (msg lang : string) : string :=
  match blob_translate msg lang with
  | Translated translated => (translated ++ nl)%string
  | _ => (msg ++ nl)%string
  end.

Definition fails (msg lang : string) : bool :=
  match blob_translate msg lang with
  | OtherException => true
  | _ => false
  end.

End Translate.

End Main.

(** ** More vocabulary of the proofs *)

(** The spans lie one after the other inside a text of length [len], none
    starting before [left]. *)
Fixpoint spans_in_order (left : nat) (spans : list (nat * nat)) (len : nat) : Prop :=
  match spans with
  | [] => True
  | (s, e) :: tl => left <= s /\ s <= e /\ e <= len /\ spans_in_order e tl len
  end.

(** [consumes st pre st']: the matcher went from [st] to [st'] over the
    characters [pre]. *)
Definition consumes (st : Re.state) (pre : text) (st' : Re.state) : Prop :=
  Re.rest st = pre ++ Re.rest st' /\ Re.pos st' = Re.pos st + length pre.

Definition consuming (body : Re.state -> Re.cont -> option Re.state) : Prop :=
  forall st k res,
    body st k = Some res -> exists pre st', consumes st pre st' /\ k st' = Some res.

(** The number of characters of [s] from its start on that satisfy [q]. *)
Fixpoint run (q : ascii -> bool) (s : text) : nat :=
  match s with
  | c :: tl => if q c then S (run q tl) else 0
  | [] => 0
  end.

(** Neither a word character nor whitespace. *)
Definition is_punct (c : ascii) : bool := negb (Re.is_word c || Re.is_space c).

(** The class whose run a match of the word and punctuation pattern
    starting with [c] takes. *)
Definition class_of (c : ascii) : ascii -> bool :=
  if Re.is_word c then Re.is_word else is_punct.

(** The code [re.compile] produces for the patterns of the other presets. *)
Definition word_code : Re.regex := Re.IN false [Re.SET_CATEGORY false false Re.WORD].

Definition punct_code : Re.regex :=
  Re.IN true [Re.SET_CATEGORY false false Re.WORD; Re.SET_CATEGORY false false Re.SPACE].

Definition wordpunct_code : Re.regex :=
  Re.BRANCH (Re.SEQ word_code (Re.MAX_STAR word_code))
    (Re.SEQ punct_code (Re.MAX_STAR punct_code)).

Definition wordpunct_pattern : Re.SRE_Pattern :=
  Re.mkpattern "\w+|[^\w\s]+" 0 0 wordpunct_code.

Definition blankline_code : Re.regex :=
  Re.SEQ (Re.MAX_STAR space_code)
    (Re.SEQ (Re.LITERAL Re.newline)
       (Re.SEQ (Re.MAX_STAR space_code)
          (Re.SEQ (Re.LITERAL Re.newline) (Re.MAX_STAR space_code)))).

Definition blankline_pattern : Re.SRE_Pattern :=
  Re.mkpattern "\s*\n\s*\n\s*" 0 0 blankline_code.

(** The configuration of a tokenizer, without what it has compiled. *)
Definition fresh (t : RegexpTokenizer) : RegexpTokenizer :=
  mkRegexpTokenizer (_pattern t) (_gaps t) (_discard_empty t) (_flags t) None.

(** What a tokenizer has compiled, if anything, is its own pattern. *)
Definition cache_ok (t : RegexpTokenizer) : Prop :=
  match _regexp t with
  | None => True
  | Some c => Re.compile (_pattern t) 0 = inr c
  end.

Definition not_space (c : ascii) : bool := negb (Re.is_space c).

(** A token of the word and punctuation preset: not empty, and word
    characters throughout or punctuation throughout. *)
Definition is_wordpunct_token (w : text) : bool :=
  negb (match w with [] => true | _ => false end)
  && (forallb Re.is_word w || forallb is_punct w).

(** * Properties *)

(** ** The matcher stays inside the text *)

Module ReFacts.
Import Re.

Lemma reach_refl st : reach st st.
Proof. split; lia. Qed.

Lemma reach_trans a b c : reach a b -> reach b c -> reach a c.
Proof. unfold reach; intros [? ?] [? ?]; split; lia. Qed.

Lemma match_char_sound p : sound (match_char p).
Proof.
  intros st k res H. unfold match_char in H.
  destruct (rest st) as [|c tl] eqn:E; [discriminate|].
  destruct (p c); [|discriminate].
  exists (advance c tl st). split; [|exact H].
  unfold reach, advance; simpl. rewrite E; simpl. lia.
Qed.

Lemma guard_sound (b : bool) st (k : cont) res :
  (if b then k st else None) = Some res -> exists st', reach st st' /\ k st' = Some res.
Proof.
  destruct b; [|discriminate]. intros H; exists st; split; [apply reach_refl|exact H].
Qed.

Lemma orelse_some {A} (a b : option A) x :
  orelse a b = Some x -> a = Some x \/ b = Some x.
Proof. destruct a; simpl; auto. Qed.

Lemma repeat_max_sound body : sound body -> forall n, sound (repeat_max body n).
Proof.
  intros Hb n; induction n as [|n IH]; intros st k res H; simpl in H.
  - exists st; split; [apply reach_refl|exact H].
  - apply orelse_some in H as [H|H].
    + apply Hb in H as (st1 & R1 & H).
      destruct (pos st <? pos st1).
      * apply IH in H as (st2 & R2 & H). exists st2; split; [|exact H].
        eapply reach_trans; eassumption.
      * exists st1; auto.
    + exists st; split; [apply reach_refl|exact H].
Qed.

Lemma repeat_min_sound body : sound body -> forall n, sound (repeat_min body n).
Proof.
  intros Hb n; induction n as [|n IH]; intros st k res H; simpl in H.
  - exists st; split; [apply reach_refl|exact H].
  - apply orelse_some in H as [H|H].
    + exists st; split; [apply reach_refl|exact H].
    + apply Hb in H as (st1 & R1 & H).
      destruct (pos st <? pos st1); [|discriminate].
      apply IH in H as (st2 & R2 & H). exists st2; split; [|exact H].
      eapply reach_trans; eassumption.
Qed.

Lemma sre_match_sound r : sound (sre_match r).
Proof.
  induction r; intros st k res H; cbn [sre_match] in H;
    try (apply match_char_sound in H; exact H);
    try (apply guard_sound in H; exact H).
  - exists st; split; [apply reach_refl|exact H].
  - apply IHr1 in H as (st1 & R1 & H). apply IHr2 in H as (st2 & R2 & H).
    exists st2; split; [eapply reach_trans; eassumption|exact H].
  - apply orelse_some in H as [H|H]; [apply IHr1 in H|apply IHr2 in H]; exact H.
  - apply (repeat_max_sound _ IHr) in H; exact H.
  - apply (repeat_min_sound _ IHr) in H; exact H.
  - apply IHr in H as (st1 & R1 & H).
    exists (set_mark group (pos st) (pos st1) st1); split; [|exact H].
    exact R1.
Qed.

Lemma search_from_bounds r : forall s p pv m,
  search_from r p pv s = Some m ->
  p <= m_start m /\ m_start m <= m_end m /\ m_end m <= p + length s.
Proof.
  induction s as [|c tl IH]; intros p pv m H; simpl in H.
  - destruct (sre_match r (mkstate p pv [] []) (fun st => Some st)) as [e|] eqn:E;
      [|discriminate].
    apply sre_match_sound in E as (st' & [R1 R2] & E'). injection E' as ->.
    injection H as <-; simpl in *. lia.
  - destruct (sre_match r (mkstate p pv (c :: tl) []) (fun st => Some st)) as [e|] eqn:E.
    + apply sre_match_sound in E as (st' & [R1 R2] & E'). injection E' as ->.
      injection H as <-; simpl in *. lia.
    + apply IH in H. simpl. lia.
Qed.

Lemma sre_search_bounds r s p m :
  sre_search r s p = Some m ->
  p <= m_start m /\ m_start m <= m_end m /\ m_end m <= length s.
Proof.
  unfold sre_search. destruct (p <=? length s) eqn:E; [|discriminate].
  apply Nat.leb_le in E. intros H. apply search_from_bounds in H.
  rewrite length_skipn in H. lia.
Qed.

Lemma next_start_gt r s p m : sre_search r s p = Some m -> p < next_start m.
Proof.
  intros H. apply sre_search_bounds in H. unfold next_start.
  destruct (m_end m =? m_start m) eqn:E.
  - apply Nat.eqb_eq in E. lia.
  - apply Nat.eqb_neq in E. lia.
Qed.

Lemma next_start_le r s p m : sre_search r s p = Some m -> next_start m <= S (length s).
Proof.
  intros H. apply sre_search_bounds in H. unfold next_start.
  destruct (m_end m =? m_start m); lia.
Qed.

(** *** The loops end before their fuel does *)

Lemma findall_loop_returns p s : forall fuel start,
  start <= S (length s) -> S (S (length s)) <= fuel + start ->
  exists l, findall_loop fuel p s start = Returns l.
Proof.
  induction fuel as [|fuel IH]; intros start Hs Hf; [lia|]. simpl.
  destruct (start <=? length s); [|eauto].
  destruct (sre_search (code p) s start) as [m|] eqn:E; [|eauto].
  destruct (IH (next_start m)) as [l Hl].
  - eapply next_start_le; eassumption.
  - apply next_start_gt in E. lia.
  - rewrite Hl; simpl; eauto.
Qed.

Lemma finditer_loop_returns p s : forall fuel start,
  start <= S (length s) -> S (S (length s)) <= fuel + start ->
  exists l, finditer_loop fuel p s start = Returns l.
Proof.
  induction fuel as [|fuel IH]; intros start Hs Hf; [lia|]. simpl.
  destruct (sre_search (code p) s start) as [m|] eqn:E; [|eauto].
  destruct (IH (next_start m)) as [l Hl].
  - eapply next_start_le; eassumption.
  - apply next_start_gt in E. lia.
  - rewrite Hl; simpl; eauto.
Qed.

Lemma split_loop_returns p s : forall fuel start last,
  start <= S (length s) -> S (S (length s)) <= fuel + start ->
  exists l, split_loop fuel p s start last = Returns l.
Proof.
  induction fuel as [|fuel IH]; intros start last Hs Hf; [lia|]. simpl.
  destruct (sre_search (code p) s start) as [m|] eqn:E; [|eauto].
  pose proof (sre_search_bounds _ _ _ _ E) as (B1 & B2 & B3).
  destruct (m_start m =? m_end m) eqn:Z.
  - destruct (last =? length s); [eauto|]. apply IH; lia.
  - apply Nat.eqb_neq in Z.
    destruct (IH (m_end m) (m_end m)) as [l Hl]; [lia|lia|].
    rewrite Hl; simpl; eauto.
Qed.

Lemma findall_returns p s : exists l, findall p s = Returns l.
Proof. apply findall_loop_returns; lia. Qed.

Lemma finditer_returns p s : exists l, finditer p s = Returns l.
Proof. apply finditer_loop_returns; lia. Qed.

Lemma split_returns p s : exists l, split p s = Returns l.
Proof. apply split_loop_returns; lia. Qed.

End ReFacts.

(** ** Splitting on whitespace *)

Module WhitespaceFacts.
Import Re ReFacts.

Lemma match_char_ext p q st k :
  (forall c, p c = q c) -> match_char p st k = match_char q st k.
Proof.
  intros H. unfold match_char. destruct (rest st) as [|c tl]; [reflexivity|].
  rewrite H. reflexivity.
Qed.

Lemma space_code_match st k : sre_match space_code st k = match_char is_space st k.
Proof.
  unfold space_code. cbn [sre_match]. apply match_char_ext.
  intros c. simpl. destruct (is_space c); reflexivity.
Qed.

(** The greedy repetition of a whitespace character takes the whole run. *)
Lemma spaces_max : forall n st,
  length (rest st) < n ->
  exists e, repeat_max (sre_match space_code) n st (fun x => Some x) = Some e
            /\ pos e = pos st + space_run (rest st) /\ marks e = marks st.
Proof.
  induction n as [|n IH]; intros st Hn; [lia|].
  cbn [repeat_max]. rewrite space_code_match. unfold match_char.
  destruct st as [p pv s ms]; simpl in *.
  destruct s as [|c tl]; simpl.
  - eexists; split; [reflexivity|simpl; split; [lia|reflexivity]].
  - destruct (is_space c) eqn:Ec; simpl.
    + assert (L : (p <? S p) = true) by (apply Nat.ltb_lt; lia). rewrite L.
      destruct (IH (advance c tl (mkstate p pv (c :: tl) ms))) as (e & H1 & H2 & H3).
      { simpl in *; lia. }
      rewrite H1; simpl. exists e; split; [reflexivity|].
      simpl in *; split; [lia|assumption].
    + eexists; split; [reflexivity|simpl; split; [lia|reflexivity]].
Qed.

Lemma whitespace_match_none p pv s :
  space_run s = 0 ->
  sre_match whitespace_code (mkstate p pv s []) (fun x => Some x) = None.
Proof.
  intros H. unfold whitespace_code. cbn [sre_match]. rewrite space_code_match.
  unfold match_char; simpl. destruct s as [|c tl]; [reflexivity|].
  simpl in H. destruct (is_space c); [discriminate|reflexivity].
Qed.

Lemma whitespace_match_some p pv s :
  space_run s <> 0 ->
  exists e, sre_match whitespace_code (mkstate p pv s []) (fun x => Some x) = Some e
            /\ pos e = p + space_run s /\ marks e = [].
Proof.
  intros H. unfold whitespace_code. cbn [sre_match]. rewrite space_code_match.
  unfold match_char; simpl. destruct s as [|c tl]; [simpl in H; lia|].
  simpl in *. destruct (is_space c); [|lia].
  destruct (spaces_max (S (length tl)) (advance c tl (mkstate p pv (c :: tl) [])))
    as (e & H1 & H2 & H3).
  { simpl; lia. }
  simpl in *. exists e; split; [exact H1|]. split; [lia|assumption].
Qed.

Lemma skipn_word_run_space s c tl :
  skipn (word_run s) s = c :: tl -> is_space c = true.
Proof.
  induction s as [|a s IH]; simpl; [discriminate|].
  destruct (is_space a) eqn:E; simpl.
  - intros H; injection H as <- _. exact E.
  - exact IH.
Qed.

(** The first match of the whitespace pattern from an offset on: the
    first run of whitespace, whole. *)
Lemma whitespace_search_from : forall s p pv,
  search_from whitespace_code p pv s =
  match skipn (word_run s) s with
  | [] => None
  | _ :: _ =>
      Some (mkmatch (p + word_run s)
              (p + word_run s + space_run (skipn (word_run s) s)) [])
  end.
Proof.
  induction s as [|c tl IH]; intros p pv.
  - cbn [search_from]. rewrite whitespace_match_none by reflexivity. reflexivity.
  - cbn [search_from word_run].
    destruct (is_space c) eqn:Ec.
    + destruct (whitespace_match_some p pv (c :: tl)) as (e & H1 & H2 & H3).
      { simpl. rewrite Ec. lia. }
      rewrite H1. cbn [skipn]. rewrite Nat.add_0_r, H2, H3. reflexivity.
    + rewrite whitespace_match_none by (simpl; rewrite Ec; reflexivity).
      rewrite IH. cbn [skipn]. destruct (skipn (word_run tl) tl); [reflexivity|].
      rewrite <- !Nat.add_succ_comm. reflexivity.
Qed.

Lemma rev_nil_inv {A} (l : list A) : rev l = [] -> l = [].
Proof.
  destruct l as [|a l]; [reflexivity|]. simpl. intros H.
  destruct (rev l); discriminate.
Qed.

Lemma one_word_rev cur : one_word (rev cur) = match cur with [] => [] | _ => [rev cur] end.
Proof.
  destruct cur as [|a cur]; [reflexivity|].
  unfold one_word. destruct (rev (a :: cur)) eqn:E; [|reflexivity].
  apply rev_nil_inv in E. discriminate.
Qed.

Lemma words_word : forall w cur,
  forallb (fun c => negb (is_space c)) w = true ->
  words cur w = one_word (rev cur ++ w).
Proof.
  induction w as [|a w IH]; intros cur H; simpl in *.
  - rewrite app_nil_r. symmetry. apply one_word_rev.
  - apply andb_true_iff in H as [Ha Hw].
    destruct (is_space a); [discriminate|].
    rewrite IH by assumption. simpl. rewrite <- app_assoc. reflexivity.
Qed.

Lemma words_app_space : forall w cur c tl,
  forallb (fun c => negb (is_space c)) w = true ->
  is_space c = true ->
  words cur (w ++ c :: tl) = one_word (rev cur ++ w) ++ words [] tl.
Proof.
  induction w as [|a w IH]; intros cur c tl H Hc; simpl in *.
  - rewrite Hc, app_nil_r, one_word_rev. destruct cur; reflexivity.
  - apply andb_true_iff in H as [Ha Hw].
    destruct (is_space a); [discriminate|].
    rewrite IH by assumption. simpl. rewrite <- app_assoc. reflexivity.
Qed.

Lemma words_skip_spaces : forall s, words [] (skipn (space_run s) s) = words [] s.
Proof.
  induction s as [|c tl IH]; [reflexivity|]. simpl.
  destruct (is_space c) eqn:E; simpl; [exact IH|].
  rewrite E. reflexivity.
Qed.

Lemma firstn_word_run : forall s,
  forallb (fun c => negb (is_space c)) (firstn (word_run s) s) = true.
Proof.
  induction s as [|c tl IH]; [reflexivity|]. simpl.
  destruct (is_space c) eqn:E; simpl; [reflexivity|]. rewrite E. exact IH.
Qed.

Lemma word_run_le : forall s, word_run s <= length s.
Proof.
  induction s as [|c tl IH]; simpl; [lia|]. destruct (is_space c); simpl; lia.
Qed.

Lemma space_run_le : forall s, space_run s <= length s.
Proof.
  induction s as [|c tl IH]; simpl; [lia|]. destruct (is_space c); simpl; lia.
Qed.

Lemma truthy_token w : truthy (token_of w) = match w with [] => false | _ => true end.
Proof. destruct w; reflexivity. Qed.

Lemma filter_truthy_token w l :
  filter truthy (token_of w :: l) = map token_of (one_word w) ++ filter truthy l.
Proof. cbn [filter]. rewrite truthy_token. destruct w; reflexivity. Qed.

Lemma whitespace_search s start :
  start <= length s ->
  sre_search whitespace_code s start =
  let suf := skipn start s in
  match skipn (word_run suf) suf with
  | [] => None
  | _ :: _ =>
      Some (mkmatch (start + word_run suf)
              (start + word_run suf + space_run (skipn (word_run suf) suf)) [])
  end.
Proof.
  intros H. unfold sre_search. apply Nat.leb_le in H. rewrite H.
  apply whitespace_search_from.
Qed.

Lemma omap_returns {A B} (f : A -> B) (o : outcome A) b :
  omap f o = Returns b -> exists a, o = Returns a /\ f a = b.
Proof.
  destruct o; simpl; try discriminate. intros H; injection H as <-. eauto.
Qed.

(** [split] of the whitespace pattern, empty tokens dropped, is [words]. *)
Lemma whitespace_split_loop s : forall fuel start,
  start <= length s -> S (S (length s)) <= fuel + start ->
  omap (filter truthy) (split_loop fuel whitespace_pattern s start start) =
  Returns (map token_of (words [] (skipn start s))).
Proof.
  induction fuel as [|fuel IH]; intros start Hs Hf; [lia|].
  cbn [split_loop]. change (code whitespace_pattern) with whitespace_code.
  rewrite whitespace_search by assumption. cbv zeta.
  set (suf := skipn start s).
  assert (Lsuf : length suf = length s - start) by apply length_skipn.
  pose proof (firstn_skipn (word_run suf) suf) as Dec.
  pose proof (firstn_word_run suf) as Hw.
  pose proof (word_run_le suf) as Hwl.
  destruct (skipn (word_run suf) suf) as [|c tl] eqn:E.
  - rewrite app_nil_r in Dec. rewrite Dec in Hw.
    assert (Sl : slice s start (length s) = suf).
    { unfold slice. fold suf. apply firstn_all2. lia. }
    rewrite Sl. change (PyStr (str suf)) with (token_of suf).
    unfold omap; cbn [obind].
    rewrite filter_truthy_token, (words_word suf [] Hw). simpl.
    rewrite app_nil_r. reflexivity.
  - pose proof (skipn_word_run_space _ _ _ E) as Hc.
    cbn [m_start m_end space_run]. rewrite Hc.
    assert (Ne : (start + word_run suf =? start + word_run suf + S (space_run tl)) = false)
      by (apply Nat.eqb_neq; lia).
    rewrite Ne.
    pose proof (space_run_le tl) as Hsl.
    assert (Ltl : length suf = word_run suf + S (length tl)).
    { rewrite <- Dec at 1. rewrite length_app, length_firstn. simpl. lia. }
    assert (IH' := IH (start + word_run suf + S (space_run tl))
                     ltac:(lia) ltac:(lia)).
    apply omap_returns in IH' as (x & Hx & Fx).
    rewrite Hx. unfold omap; cbn [obind].
    change (map (getslice s _ false) (seq 1 (groups whitespace_pattern))) with (@nil pyval).
    cbn [app].
    change (PyStr (str (slice s start (start + word_run suf))))
      with (token_of (slice s start (start + word_run suf))).
    rewrite filter_truthy_token, Fx.
    assert (Sl : slice s start (start + word_run suf) = firstn (word_run suf) suf).
    { unfold slice. fold suf. f_equal. lia. }
    rewrite Sl.
    assert (Sk : skipn (start + word_run suf + S (space_run tl)) s
                 = skipn (space_run tl) tl).
    { replace (start + word_run suf + S (space_run tl))
        with (S (space_run tl) + (word_run suf + start)) by lia.
      rewrite <- !skipn_skipn. fold suf. rewrite E. reflexivity. }
    rewrite Sk, words_skip_spaces, <- map_app. f_equal. f_equal.
    rewrite <- Dec at 3. rewrite (words_app_space _ [] _ _ Hw Hc). reflexivity.
Qed.

Lemma whitespace_split s :
  omap (filter truthy) (split whitespace_pattern s) = Returns (map token_of (words [] s)).
Proof.
  unfold split. rewrite whitespace_split_loop by lia. reflexivity.
Qed.

Lemma compile_whitespace : compile "\s+" 0 = inr whitespace_pattern.
Proof. reflexivity. Qed.

Lemma tokenize_whitespace txt compiled :
  tokenize txt (whitespace_tokenizer compiled) =
  (Returns (map token_of (words [] (chars txt))), whitespace_tokenizer true).
Proof.
  unfold tokenize, bind, _check_regexp, whitespace_tokenizer.
  destruct compiled; cbn [_regexp _pattern _gaps _discard_empty _flags];
    rewrite ?compile_whitespace; cbn [_gaps _discard_empty];
    change (obind (split whitespace_pattern (chars txt))
              (fun toks => Returns (filter truthy toks)))
      with (omap (filter truthy) (split whitespace_pattern (chars txt)));
    rewrite whitespace_split; reflexivity.
Qed.

(** *** Joining the words and splitting again *)

Lemma chars_app (a b : string) : chars (a ++ b) = chars a ++ chars b.
Proof.
  unfold chars. induction a as [|c a IH]; simpl; [reflexivity|].
  rewrite IH. reflexivity.
Qed.

Lemma chars_str w : chars (str w) = w.
Proof. apply list_ascii_of_string_of_list_ascii. Qed.

Lemma chars_join : forall ws, chars (join " " (map str ws)) = unwords ws.
Proof.
  induction ws as [|w ws IH]; [reflexivity|].
  destruct ws as [|w2 ws]; [apply chars_str|].
  cbn [map join unwords] in *. rewrite !chars_app, chars_str, IH. reflexivity.
Qed.

Lemma forallb_rev {A} (f : A -> bool) l : forallb f (rev l) = forallb f l.
Proof.
  induction l as [|a l IH]; [reflexivity|]. simpl.
  rewrite forallb_app, IH. simpl. rewrite andb_true_r. apply andb_comm.
Qed.

Lemma is_word_text_rev a cur :
  forallb (fun c => negb (is_space c)) (a :: cur) = true ->
  is_word_text (rev (a :: cur)) = true.
Proof.
  intros H. unfold is_word_text. rewrite forallb_rev, H.
  destruct (rev (a :: cur)) eqn:E; [|reflexivity].
  apply rev_nil_inv in E. discriminate.
Qed.

(** Every word is non-empty and free of whitespace. *)
Lemma words_are_words : forall s cur,
  forallb (fun c => negb (is_space c)) cur = true ->
  Forall (fun w => is_word_text w = true) (words cur s).
Proof.
  induction s as [|c tl IH]; intros cur H; simpl.
  - destruct cur; constructor; [apply is_word_text_rev; exact H|constructor].
  - destruct (is_space c) eqn:E.
    + destruct cur; [apply IH; reflexivity|].
      constructor; [apply is_word_text_rev; exact H|apply IH; reflexivity].
    + apply IH. simpl. rewrite E, H. reflexivity.
Qed.

Lemma space_is_space : is_space space = true.
Proof. reflexivity. Qed.

Lemma words_unwords : forall ws,
  Forall (fun w => is_word_text w = true) ws -> words [] (unwords ws) = ws.
Proof.
  induction ws as [|w ws IH]; intros H; [reflexivity|].
  inversion H as [|? ? Hw Hws]; subst.
  unfold is_word_text in Hw. apply andb_true_iff in Hw as [Hn Hf].
  destruct ws as [|w2 ws].
  - cbn [unwords]. rewrite (words_word w [] Hf). simpl.
    destruct w; [discriminate|reflexivity].
  - cbn [unwords] in *. rewrite (words_app_space w [] space _ Hf space_is_space).
    rewrite IH by assumption. simpl.
    destruct w; [discriminate|reflexivity].
Qed.

End WhitespaceFacts.

(** ** The tokenizer *)

Lemma check_regexp_fresh a g d f :
  _check_regexp (__init__ a g d f) =
  match Re.compile (getattr_pattern a) 0 with
  | inl e => (Raises e, __init__ a g d f)
  | inr c => (Returns c, mkRegexpTokenizer (getattr_pattern a) g d f (Some c))
  end.
Proof. unfold _check_regexp, __init__; simpl. destruct (Re.compile _ 0); reflexivity. Qed.

(** [_check_regexp] keeps the mode and the filter. *)
Lemma check_regexp_keeps t c t' :
  _check_regexp t = (Returns c, t') ->
  _gaps t' = _gaps t /\ _discard_empty t' = _discard_empty t.
Proof.
  unfold _check_regexp. destruct (_regexp t).
  - intros H; injection H as _ <-. auto.
  - destruct (Re.compile (_pattern t) 0); [discriminate|].
    intros H; injection H as _ <-. auto.
Qed.

Lemma check_regexp_cases t :
  (exists c t', _check_regexp t = (Returns c, t')) \/
  (exists e, _check_regexp t = (Raises e, t)).
Proof.
  unfold _check_regexp. destruct (_regexp t); [left; eauto|].
  destruct (Re.compile (_pattern t) 0); [right|left]; eauto.
Qed.

Lemma tokenize_returns t c txt :
  fst (_check_regexp t) = Returns c -> exists toks, fst (tokenize txt t) = Returns toks.
Proof.
  intros H. unfold tokenize, bind.
  destruct (_check_regexp t) as [o t'] eqn:E. simpl in H; subst o.
  destruct (_gaps t'); [destruct (_discard_empty t')|]; simpl.
  - destruct (ReFacts.split_returns c (chars txt)) as [l ->]. simpl. eauto.
  - apply ReFacts.split_returns.
  - apply ReFacts.findall_returns.
Qed.

Lemma span_tokenize_returns t c txt :
  fst (_check_regexp t) = Returns c -> exists spans, fst (span_tokenize txt t) = Returns spans.
Proof.
  intros H. unfold span_tokenize, bind, regexp_span_tokenize.
  destruct (_check_regexp t) as [o t'] eqn:E. simpl in H; subst o.
  destruct (ReFacts.finditer_returns c (chars txt)) as [l Hl].
  destruct (_gaps t'); simpl; rewrite Hl; simpl; eauto.
Qed.

(** Without groups, [findall] is the text of the matches of [finditer]. *)
Lemma findall_loop_finditer p s : Re.groups p = 0 -> forall fuel start,
  Re.findall_loop fuel p s start =
  omap (map (fun m => PyStr (str (slice s (Re.m_start m) (Re.m_end m)))))
    (Re.finditer_loop fuel p s start).
Proof.
  intros Hg. induction fuel as [|fuel IH]; intros start; [reflexivity|].
  cbn [Re.findall_loop Re.finditer_loop].
  destruct (start <=? length s) eqn:E.
  - destruct (Re.sre_search (Re.code p) s start) as [m|]; [|reflexivity].
    rewrite IH. unfold Re.findall_item. rewrite Hg.
    destruct (Re.finditer_loop fuel p s (Re.next_start m)); reflexivity.
  - unfold Re.sre_search. rewrite E. reflexivity.
Qed.

Lemma token_mode_law (t : RegexpTokenizer) (c : Re.SRE_Pattern) (txt : string) :
  fst (_check_regexp t) = Returns c -> _gaps t = false -> Re.groups c = 0 ->
  exists spans,
    fst (span_tokenize txt t) = Returns spans /\
    fst (tokenize txt t) = Returns (slices txt spans).
Proof.
  intros H Hg Hz. unfold tokenize, span_tokenize, bind.
  destruct (_check_regexp t) as [o t'] eqn:E. simpl in H; subst o.
  destruct (check_regexp_keeps _ _ _ E) as [G _]. rewrite G, Hg. simpl.
  unfold Re.findall, Re.finditer. rewrite (findall_loop_finditer _ _ Hz).
  destruct (ReFacts.finditer_loop_returns c (chars txt) (S (S (length (chars txt)))) 0)
    as [l Hl]; [lia|lia|].
  rewrite Hl. simpl. eexists; split; [reflexivity|].
  unfold slices. rewrite map_map. reflexivity.
Qed.

(** X16.  In token mode a pattern without groups keeps [tokenize] and
    [span_tokenize] in step: the slices of the spans are the tokens. *)
Theorem token_mode_consistent_without_groups (t : RegexpTokenizer)
  (c : Re.SRE_Pattern) (txt : string) :
  fst (_check_regexp t) = Returns c -> _gaps t = false -> Re.groups c = 0 ->
  exists spans,
    fst (span_tokenize txt t) = Returns spans /\
    fst (tokenize txt t) = Returns (slices txt spans).
Proof. exact (token_mode_law t c txt). Qed.

Lemma token_mode_consistent_without_groups_witness :
  exists spans,
    fst (span_tokenize "Good $3.88" WordPunctTokenizer) = Returns spans /\
    fst (tokenize "Good $3.88" WordPunctTokenizer) = Returns (slices "Good $3.88" spans).
Proof.
  eapply token_mode_consistent_without_groups; reflexivity.
Defined.

(** *** Gap mode without groups and without empty separators *)

Lemma split_loop_finditer p s :
  Re.groups p = 0 ->
  (forall start m, Re.sre_search (Re.code p) s start = Some m ->
                   Re.m_start m <> Re.m_end m) ->
  forall fuel start,
    Re.split_loop fuel p s start start =
    omap (fun ms => map (span_token s) (gap_spans start ms (length s)))
      (Re.finditer_loop fuel p s start).
Proof.
  intros Hg Hne. induction fuel as [|fuel IH]; intros start; [reflexivity|].
  cbn [Re.split_loop Re.finditer_loop].
  destruct (Re.sre_search (Re.code p) s start) as [m|] eqn:E; [|reflexivity].
  pose proof (Hne _ _ E) as Hm.
  assert (N1 : (Re.m_start m =? Re.m_end m) = false) by (apply Nat.eqb_neq; exact Hm).
  assert (N2 : Re.next_start m = Re.m_end m).
  { unfold Re.next_start. destruct (Re.m_end m =? Re.m_start m) eqn:Z; [|reflexivity].
    apply Nat.eqb_eq in Z. congruence. }
  rewrite N1, N2, IH, Hg.
  destruct (Re.finditer_loop fuel p s (Re.m_end m)); reflexivity.
Qed.

Lemma finditer_loop_in_order p s :
  (forall start m, Re.sre_search (Re.code p) s start = Some m ->
                   Re.m_start m <> Re.m_end m) ->
  forall fuel start ms,
    start <= length s ->
    Re.finditer_loop fuel p s start = Returns ms -> in_order start ms (length s).
Proof.
  intros Hne. induction fuel as [|fuel IH]; intros start ms Hs H; [discriminate|].
  cbn [Re.finditer_loop] in H.
  destruct (Re.sre_search (Re.code p) s start) as [m|] eqn:E.
  - pose proof (Hne _ _ E) as Hm.
    pose proof (ReFacts.sre_search_bounds _ _ _ _ E) as (B1 & B2 & B3).
    assert (N2 : Re.next_start m = Re.m_end m).
    { unfold Re.next_start. destruct (Re.m_end m =? Re.m_start m) eqn:Z; [|reflexivity].
      apply Nat.eqb_eq in Z. congruence. }
    rewrite N2 in H.
    destruct (Re.finditer_loop fuel p s (Re.m_end m)) as [tl| |] eqn:F; try discriminate.
    injection H as <-. simpl. repeat split; try assumption.
    apply (IH _ _ B3 F).
  - injection H as <-. exact Hs.
Qed.

Lemma gap_spans_bounds : forall ms left len,
  in_order left ms len ->
  Forall (fun sp => fst sp <= snd sp /\ snd sp <= len) (gap_spans left ms len).
Proof.
  induction ms as [|m tl IH]; intros left len H; simpl in *.
  - constructor; [simpl; lia|constructor].
  - destruct H as (H1 & H2 & H3). constructor.
    + simpl. split; [exact H1|].
      specialize (IH _ _ H3). destruct tl; simpl in *.
      * lia.
      * destruct H3 as (? & ? & ?). inversion IH; subst. simpl in *. lia.
    + apply IH. exact H3.
Qed.

Lemma truthy_span_token s sp :
  fst sp <= snd sp -> snd sp <= length s ->
  truthy (span_token s sp) = negb (fst sp =? snd sp).
Proof.
  destruct sp as [l r]; simpl. intros H1 H2. unfold span_token, slice; simpl.
  destruct (l =? r) eqn:E.
  - apply Nat.eqb_eq in E. subst. rewrite Nat.sub_diag. reflexivity.
  - apply Nat.eqb_neq in E.
    destruct (r - l) as [|n] eqn:D; [lia|].
    destruct (skipn l s) as [|a tl] eqn:K.
    + apply (f_equal (@length ascii)) in K. rewrite length_skipn in K. simpl in K. lia.
    + reflexivity.
Qed.

Lemma filter_span_tokens s d : forall spans,
  Forall (fun sp => fst sp <= snd sp /\ snd sp <= length s) spans ->
  map (span_token s) (filter (fun '(l, r) => negb (d && (l =? r))) spans) =
  if d then filter truthy (map (span_token s) spans) else map (span_token s) spans.
Proof.
  induction spans as [|[l r] tl IH]; intros H; [destruct d; reflexivity|].
  inversion H as [|? ? [H1 H2] Htl]; subst. specialize (IH Htl).
  cbn [filter map]. destruct d; cbn [andb negb] in *.
  - rewrite (truthy_span_token s (l, r) H1 H2). cbn [fst snd].
    destruct (l =? r); cbn [negb map]; rewrite IH; reflexivity.
  - cbn [map]. rewrite IH. reflexivity.
Qed.

Lemma gap_mode_law (t : RegexpTokenizer) (c : Re.SRE_Pattern) (txt : string) :
  fst (_check_regexp t) = Returns c -> _gaps t = true -> Re.groups c = 0 ->
  (forall start m, Re.sre_search (Re.code c) (chars txt) start = Some m ->
                   Re.m_start m <> Re.m_end m) ->
  exists spans,
    fst (span_tokenize txt t) = Returns spans /\
    fst (tokenize txt t) = Returns (slices txt spans).
Proof.
  intros H Hg Hz Hne. unfold tokenize, span_tokenize, bind, regexp_span_tokenize.
  destruct (_check_regexp t) as [o t'] eqn:E. simpl in H; subst o.
  destruct (check_regexp_keeps _ _ _ E) as [G D]. rewrite G, D, Hg.
  unfold Re.split, Re.finditer. rewrite (split_loop_finditer _ _ Hz Hne).
  destruct (ReFacts.finditer_loop_returns c (chars txt) (S (S (length (chars txt)))) 0)
    as [ms Hms]; [lia|lia|].
  rewrite Hms.
  pose proof (finditer_loop_in_order _ _ Hne _ _ _ (Nat.le_0_l _) Hms) as Ord.
  apply gap_spans_bounds in Ord.
  pose proof (filter_span_tokens (chars txt) (_discard_empty t) _ Ord) as F.
  eexists. split; [reflexivity|].
  unfold slices.
  change (fun '(s0, e) => PyStr (str (slice (chars txt) s0 e)))
    with (fun sp : nat * nat => let '(s0, e) := sp in PyStr (str (slice (chars txt) s0 e))).
  rewrite (map_ext _ (span_token (chars txt))) by (intros [? ?]; reflexivity).
  rewrite F. destruct (_discard_empty t); reflexivity.
Qed.

Lemma whitespace_matches_nonempty s start m :
  Re.sre_search whitespace_code s start = Some m -> Re.m_start m <> Re.m_end m.
Proof.
  destruct (le_lt_dec start (length s)) as [L|L].
  - rewrite WhitespaceFacts.whitespace_search by exact L. cbv zeta.
    destruct (skipn (word_run (skipn start s)) (skipn start s)) as [|a tl] eqn:E;
      [discriminate|].
    pose proof (WhitespaceFacts.skipn_word_run_space _ _ _ E) as Ha.
    intros H; injection H as <-. simpl. rewrite Ha. lia.
  - unfold Re.sre_search. apply Nat.leb_gt in L. rewrite L. discriminate.
Qed.

(** X17.  In gap mode the slices of the spans are the tokens for a
    pattern without groups none of whose matches in the text is empty
    ([regexp_span_tokenize] as the spec describes it). *)
Theorem gap_mode_consistent_without_groups (t : RegexpTokenizer)
  (c : Re.SRE_Pattern) (txt : string) :
  fst (_check_regexp t) = Returns c -> _gaps t = true -> Re.groups c = 0 ->
  (forall start m, Re.sre_search (Re.code c) (chars txt) start = Some m ->
                   Re.m_start m <> Re.m_end m) ->
  exists spans,
    fst (span_tokenize txt t) = Returns spans /\
    fst (tokenize txt t) = Returns (slices txt spans).
Proof. exact (gap_mode_law t c txt). Qed.

Lemma gap_mode_consistent_without_groups_witness :
  exists spans,
    fst (span_tokenize " a  b " WhitespaceTokenizer) = Returns spans /\
    fst (tokenize " a  b " WhitespaceTokenizer) = Returns (slices " a  b " spans).
Proof.
  exact (gap_mode_consistent_without_groups WhitespaceTokenizer whitespace_pattern
           " a  b " eq_refl eq_refl eq_refl
           (fun start m => whitespace_matches_nonempty (chars " a  b ") start m)).
Defined.

Lemma tokenize_raises t e txt :
  _check_regexp t = (Raises e, t) -> tokenize txt t = (Raises e, t).
Proof. intros H. unfold tokenize, bind. rewrite H. reflexivity. Qed.

Lemma span_tokenize_raises t e txt :
  _check_regexp t = (Raises e, t) -> span_tokenize txt t = (Raises e, t).
Proof. intros H. unfold span_tokenize, bind. rewrite H. reflexivity. Qed.

Lemma perform_raises t e c :
  _check_regexp t = (Raises e, t) -> perform c t = (Raises e, t).
Proof.
  intros H. destruct c as [txt|txt]; unfold perform.
  - rewrite (tokenize_raises _ _ _ H). reflexivity.
  - rewrite (span_tokenize_raises _ _ _ H). reflexivity.
Qed.

(** On the empty text a search finds the empty match or nothing. *)
Lemma search_empty_text r m :
  Re.sre_search r [] 0 = Some m -> Re.m_start m = 0 /\ Re.m_end m = 0.
Proof. intros H. apply ReFacts.sre_search_bounds in H. simpl in H. lia. Qed.

Lemma findall_empty_text c :
  Re.findall c [] =
  Returns match Re.sre_search (Re.code c) [] 0 with
          | None => []
          | Some m => [Re.findall_item c [] m]
          end.
Proof.
  unfold Re.findall. cbn [length Re.findall_loop Nat.leb].
  destruct (Re.sre_search (Re.code c) [] 0) as [m|] eqn:E; [|reflexivity].
  destruct (search_empty_text _ _ E) as [Hs He].
  unfold Re.next_start. rewrite Hs, He. reflexivity.
Qed.

Lemma split_empty_text c : Re.split c [] = Returns [PyStr EmptyString].
Proof.
  unfold Re.split. cbn [length Re.split_loop].
  destruct (Re.sre_search (Re.code c) [] 0) as [m|] eqn:E; [|reflexivity].
  destruct (search_empty_text _ _ E) as [Hs He].
  rewrite Hs, He. reflexivity.
Qed.

(** ** The claims *)

(** C1 (fails on the code).  The slices of the spans are meant to be the
    tokens.  With a capturing group in the pattern they are not: for the
    pattern [(a)b] and the text [ab], [tokenize] returns the group [a]
    while [span_tokenize] yields the span of the whole match, whose slice
    is [ab]. *)
Theorem spans_and_tokens_differ_with_group :
  let t := __init__ (PatternStr "(a)b") false true default_flags in
  fst (tokenize "ab" t) = Returns [PyStr "a"] /\
  fst (span_tokenize "ab" t) = Returns [(0, 2)] /\
  slices "ab" [(0, 2)] = [PyStr "ab"].
Proof. repeat split; vm_compute; reflexivity. Qed.

(** C2 (fails on the code).  The matcher is meant to be compiled with the
    configured flags.  [_check_regexp] compiles the pattern alone: a dot
    does not match a newline although DOTALL is among the default flags,
    where the pattern compiled with these flags takes the whole text; and
    no choice of flags changes any tokenization. *)
Theorem flags_do_not_reach_compile :
  fst (tokenize ("a" ++ nl ++ "b") (__init__ (PatternStr ".+") false true default_flags))
    = Returns [PyStr "a"; PyStr "b"] /\
  (exists c, Re.compile ".+" default_flags = inr c /\
             Re.findall c (chars ("a" ++ nl ++ "b")) = Returns [PyStr ("a" ++ nl ++ "b")]) /\
  (forall a g d f1 f2 txt,
     fst (tokenize txt (__init__ a g d f1)) = fst (tokenize txt (__init__ a g d f2))).
Proof.
  split; [vm_compute; reflexivity|]. split.
  - eexists; split; [reflexivity|vm_compute; reflexivity].
  - intros a g d f1 f2 txt. unfold tokenize, bind. rewrite !check_regexp_fresh.
    destruct (Re.compile (getattr_pattern a) 0); [reflexivity|].
    cbn [_gaps _discard_empty]. destruct g; [destruct d|]; reflexivity.
Qed.

(** C3 (fails on the code).  In token mode the tokens are meant to be the
    matched substrings, also for patterns with capturing parentheses.
    [findall] returns the groups instead: for [x(y)] on [xy xy] the
    matches are the two [xy] but the tokens are [y] and [y], and for
    [(a)(b)] on [ab] the one token is the pair of the groups. *)
Theorem token_mode_returns_groups :
  let t1 := __init__ (PatternStr "x(y)") false true default_flags in
  let t2 := __init__ (PatternStr "(a)(b)") false true default_flags in
  fst (span_tokenize "xy xy" t1) = Returns [(0, 2); (3, 5)] /\
  slices "xy xy" [(0, 2); (3, 5)] = [PyStr "xy"; PyStr "xy"] /\
  fst (tokenize "xy xy" t1) = Returns [PyStr "y"; PyStr "y"] /\
  fst (tokenize "ab" t2) = Returns [PyTuple ["a"; "b"]]%string.
Proof. repeat split; vm_compute; reflexivity. Qed.

(** C4.  In gap mode with the pattern [\s+], the text [" a  b "] gives
    [a], [b] when empty tokens are discarded and the empty token, [a],
    [b], the empty token when they are kept. *)
Theorem whitespace_gaps_example :
  fst (tokenize " a  b " (__init__ (PatternStr "\s+") true true default_flags))
    = Returns [PyStr "a"; PyStr "b"] /\
  fst (tokenize " a  b " (__init__ (PatternStr "\s+") true false default_flags))
    = Returns [PyStr ""; PyStr "a"; PyStr "b"; PyStr ""].
Proof. split; vm_compute; reflexivity. Qed.

(** C5, as stated, fails: in gap mode with [discard_empty] false the
    empty text gives one empty token, not the empty sequence. *)
Lemma empty_text_keeps_empty_token :
  let t := __init__ (PatternStr "\s+") true false default_flags in
  fst (tokenize "" t) = Returns [PyStr ""] /\ fst (tokenize "" t) <> Returns [].
Proof. split; vm_compute; [reflexivity|discriminate]. Qed.

(** C5, amended.  With a pattern that compiles, [tokenize] returns on
    every text.  On the empty text it returns the empty sequence in gap
    mode when empty tokens are discarded, and in token mode when the
    pattern has no match in the empty text; in gap mode with empty tokens
    kept it returns the one empty token. *)
Theorem tokenize_validated (t : RegexpTokenizer) (c : Re.SRE_Pattern) (txt : string) :
  fst (_check_regexp t) = Returns c ->
  (exists toks, fst (tokenize txt t) = Returns toks) /\
  (_gaps t = true -> _discard_empty t = true -> fst (tokenize "" t) = Returns []) /\
  (_gaps t = true -> _discard_empty t = false ->
   fst (tokenize "" t) = Returns [PyStr ""]) /\
  (_gaps t = false -> Re.sre_search (Re.code c) [] 0 = None ->
   fst (tokenize "" t) = Returns []).
Proof.
  intros H. split; [eapply tokenize_returns; exact H|].
  unfold tokenize, bind.
  destruct (_check_regexp t) as [o t'] eqn:E. simpl in H; subst o.
  destruct (check_regexp_keeps _ _ _ E) as [-> ->].
  change (chars "") with (@nil ascii).
  rewrite split_empty_text, findall_empty_text.
  repeat split.
  - intros -> ->. reflexivity.
  - intros -> ->. reflexivity.
  - intros -> ->. reflexivity.
Qed.

Lemma tokenize_validated_witness :
  (exists toks, fst (tokenize " a" WhitespaceTokenizer) = Returns toks) /\
  fst (tokenize "" WhitespaceTokenizer) = Returns [] /\
  fst (tokenize "" (__init__ (PatternStr "\s+") true false default_flags))
    = Returns [PyStr ""] /\
  fst (tokenize "" WordPunctTokenizer) = Returns [].
Proof.
  destruct (tokenize_validated WhitespaceTokenizer whitespace_pattern " a" eq_refl)
    as (A & B & _).
  destruct (tokenize_validated (__init__ (PatternStr "\s+") true false default_flags)
              whitespace_pattern "" eq_refl) as (_ & _ & C & _).
  destruct (tokenize_validated WordPunctTokenizer _ "" eq_refl) as (_ & _ & _ & D).
  split; [exact A|]. split; [exact (B eq_refl eq_refl)|].
  split; [exact (C eq_refl eq_refl)|exact (D eq_refl eq_refl)].
Defined.

(** C6.  With a pattern that compiles, [tokenize] and [span_tokenize]
    return on every text, in both modes.  Every search that finds a match
    is followed by a search further right: the scans of [findall] and
    [finditer] go on from [next_start], that of [split] from the end of
    the match, and after an empty match both go one past its end. *)
Theorem scans_terminate_and_advance (t : RegexpTokenizer) (c : Re.SRE_Pattern)
  (txt : string) :
  fst (_check_regexp t) = Returns c ->
  returns (fst (tokenize txt t)) = true /\
  returns (fst (span_tokenize txt t)) = true /\
  (forall start m, Re.sre_search (Re.code c) (chars txt) start = Some m ->
     start < Re.next_start m /\
     (Re.m_start m = Re.m_end m -> Re.next_start m = S (Re.m_end m) /\ start < S (Re.m_end m)) /\
     (Re.m_start m <> Re.m_end m -> Re.next_start m = Re.m_end m /\ start < Re.m_end m)).
Proof.
  intros H. split; [|split].
  - destruct (tokenize_returns t c txt H) as [l ->]. reflexivity.
  - destruct (span_tokenize_returns t c txt H) as [l ->]. reflexivity.
  - intros start m Hm. split; [eapply ReFacts.next_start_gt; exact Hm|].
    apply ReFacts.sre_search_bounds in Hm. unfold Re.next_start. split; intros Hz.
    + rewrite Hz, Nat.eqb_refl. split; [reflexivity|lia].
    + destruct (Re.m_end m =? Re.m_start m) eqn:E;
        [apply Nat.eqb_eq in E; congruence|]. split; [reflexivity|lia].
Qed.

Lemma scans_terminate_and_advance_witness :
  let t := __init__ (PatternStr "x*") true true default_flags in
  let c := Re.mkpattern "x*" 0 0 (Re.MAX_STAR (Re.LITERAL "x")) in
  fst (_check_regexp t) = Returns c /\
  returns (fst (tokenize "ab" t)) = true /\
  returns (fst (span_tokenize "ab" t)) = true /\
  0 < Re.next_start (Re.mkmatch 0 0 []).
Proof.
  intros t c. split; [reflexivity|].
  destruct (scans_terminate_and_advance t c "ab" eq_refl) as (A & B & C).
  split; [exact A|]. split; [exact B|].
  exact (proj1 (C 0 (Re.mkmatch 0 0 []) eq_refl)).
Defined.

(** C7.  A pattern that [re.compile] rejects makes every call on the
    tokenizer raise that error: the first one (the constructor compiles
    nothing) and each one after it, whatever the calls and their order. *)
Theorem invalid_pattern_raises_on_every_call (a : pattern_arg) (g d : bool) (f : Z)
  (msg : string) (cs : list call) :
  Re.compile (getattr_pattern a) 0 = inl (re_error msg) ->
  perform_all cs (__init__ a g d f) = map (fun _ => Raises (re_error msg)) cs.
Proof.
  intros H.
  assert (R : _check_regexp (__init__ a g d f) = (Raises (re_error msg), __init__ a g d f))
    by (rewrite check_regexp_fresh, H; reflexivity).
  induction cs as [|c cs IH]; [reflexivity|].
  cbn [perform_all map]. rewrite (perform_raises _ _ c R), IH. reflexivity.
Qed.

Lemma invalid_pattern_raises_on_every_call_witness :
  Re.compile "(a" 0 = inl (re_error "unbalanced parenthesis") /\
  perform_all [Tokenize "a"; SpanTokenize "a"; Tokenize "b"]
    (__init__ (PatternStr "(a") false true default_flags)
  = [Raises (re_error "unbalanced parenthesis");
     Raises (re_error "unbalanced parenthesis");
     Raises (re_error "unbalanced parenthesis")].
Proof.
  split; [reflexivity|].
  apply (invalid_pattern_raises_on_every_call (PatternStr "(a") false true default_flags
           "unbalanced parenthesis" [Tokenize "a"; SpanTokenize "a"; Tokenize "b"]).
  reflexivity.
Defined.

(** C8.  The tokens of the whitespace preset, joined with single spaces
    and tokenized again with the preset (the same object or a new one),
    are the same tokens. *)
Theorem whitespace_idempotent (txt : string) :
  exists (ws : list string) (t' : RegexpTokenizer),
    tokenize txt WhitespaceTokenizer = (Returns (map PyStr ws), t') /\
    fst (tokenize (join " " ws) t') = Returns (map PyStr ws) /\
    fst (tokenize (join " " ws) WhitespaceTokenizer) = Returns (map PyStr ws).
Proof.
  exists (map str (words [] (chars txt))), (whitespace_tokenizer true).
  change WhitespaceTokenizer with (whitespace_tokenizer false).
  rewrite !WhitespaceFacts.tokenize_whitespace, WhitespaceFacts.chars_join.
  rewrite WhitespaceFacts.words_unwords
    by (apply WhitespaceFacts.words_are_words; reflexivity).
  rewrite map_map. repeat split.
Qed.

(** C9.  The word and punctuation preset splits [Good $3.88] into [Good],
    [$], [3], [.], [88]; the blank line preset splits two lines separated
    by an empty line into the two lines. *)
Theorem preset_examples :
  fst (tokenize "Good $3.88" WordPunctTokenizer)
    = Returns [PyStr "Good"; PyStr "$"; PyStr "3"; PyStr "."; PyStr "88"] /\
  fst (tokenize ("line one" ++ nl ++ nl ++ "line two") BlanklineTokenizer)
    = Returns [PyStr "line one"; PyStr "line two"].
Proof. split; vm_compute; reflexivity. Qed.

(** C10.  A tokenizer built from an object with a [pattern] attribute is
    the tokenizer built from that string: the same stored pattern, the
    same compiled matcher (compiled from the string alone, not with the
    flags of the object), the same results of both methods. *)
Theorem pattern_object_is_its_string (p : Re.SRE_Pattern) (g d : bool) (f : Z)
  (txt : string) :
  let t := __init__ (PatternObject p) g d f in
  let t' := __init__ (PatternStr (Re.pattern p)) g d f in
  t = t' /\
  _pattern t = Re.pattern p /\
  fst (_check_regexp t) =
    match Re.compile (Re.pattern p) 0 with
    | inl e => Raises e
    | inr c => Returns c
    end /\
  tokenize txt t = tokenize txt t' /\
  span_tokenize txt t = span_tokenize txt t'.
Proof.
  cbv zeta. repeat split.
  rewrite check_regexp_fresh. simpl.
  destruct (Re.compile (Re.pattern p) 0); reflexivity.
Qed.

(** * Further properties *)

Lemma compile_wordpunct : Re.compile "\w+|[^\w\s]+" 0 = inr wordpunct_pattern.
Proof. reflexivity. Qed.

Lemma compile_blankline : Re.compile "\s*\n\s*\n\s*" 0 = inr blankline_pattern.
Proof. reflexivity. Qed.

(** ** What a tokenizer keeps between calls *)

Lemma check_regexp_of_fresh t :
  cache_ok t -> _check_regexp t = _check_regexp (fresh t).
Proof.
  destruct t as [p g d f [c0|]]; unfold cache_ok, _check_regexp, fresh; simpl.
  - intros ->. reflexivity.
  - reflexivity.
Qed.

Lemma check_regexp_state t o t' :
  cache_ok t -> _check_regexp t = (o, t') -> cache_ok t' /\ fresh t' = fresh t.
Proof.
  destruct t as [p g d f [c0|]]; unfold cache_ok, _check_regexp, fresh; simpl.
  - intros H E. injection E as <- <-. simpl. auto.
  - intros _. destruct (Re.compile p 0) as [e|c] eqn:C; intros E; injection E as <- <-;
      simpl; auto.
Qed.

Lemma tokenize_state txt t :
  snd (tokenize txt t) = snd (_check_regexp t).
Proof.
  unfold tokenize, bind. destruct (_check_regexp t) as [[c|e|] t']; try reflexivity.
  destruct (_gaps t'); [destruct (_discard_empty t')|]; reflexivity.
Qed.

Lemma span_tokenize_state txt t :
  snd (span_tokenize txt t) = snd (_check_regexp t).
Proof.
  unfold span_tokenize, bind. destruct (_check_regexp t) as [[c|e|] t']; try reflexivity.
  destruct (_gaps t'); reflexivity.
Qed.

Lemma perform_state c t : snd (perform c t) = snd (_check_regexp t).
Proof.
  destruct c as [txt|txt]; unfold perform.
  - rewrite <- (tokenize_state txt t). destruct (tokenize txt t); reflexivity.
  - rewrite <- (span_tokenize_state txt t). destruct (span_tokenize txt t); reflexivity.
Qed.

Lemma tokenize_of_fresh txt t : cache_ok t -> tokenize txt t = tokenize txt (fresh t).
Proof. intros H. unfold tokenize, bind. rewrite (check_regexp_of_fresh t H). reflexivity. Qed.

Lemma span_tokenize_of_fresh txt t :
  cache_ok t -> span_tokenize txt t = span_tokenize txt (fresh t).
Proof.
  intros H. unfold span_tokenize, bind. rewrite (check_regexp_of_fresh t H). reflexivity.
Qed.

Lemma perform_of_fresh c t : cache_ok t -> perform c t = perform c (fresh t).
Proof.
  intros H. destruct c as [txt|txt]; unfold perform.
  - rewrite (tokenize_of_fresh txt t H). reflexivity.
  - rewrite (span_tokenize_of_fresh txt t H). reflexivity.
Qed.

Lemma perform_keeps c t :
  cache_ok t -> cache_ok (snd (perform c t)) /\ fresh (snd (perform c t)) = fresh t.
Proof.
  intros H. rewrite perform_state.
  destruct (_check_regexp t) as [o t'] eqn:E. exact (check_regexp_state t o t' H E).
Qed.

Lemma after_keeps : forall cs t,
  cache_ok t -> cache_ok (after cs t) /\ fresh (after cs t) = fresh t.
Proof.
  induction cs as [|c cs IH]; intros t H; [auto|].
  cbn [after]. destruct (perform_keeps c t H) as [H1 H2].
  destruct (IH _ H1) as [H3 H4]. split; [exact H3|congruence].
Qed.

Lemma init_cache_ok a g d f : cache_ok (__init__ a g d f).
Proof. exact I. Qed.

Lemma init_fresh a g d f : fresh (__init__ a g d f) = __init__ a g d f.
Proof. reflexivity. Qed.

(** X1.  Calls do not influence one another: whatever calls were made on
    a tokenizer since it was built, a call gives on it the outcome it
    gives on the tokenizer as built. *)
Theorem calls_are_independent (a : pattern_arg) (g d : bool) (f : Z)
  (cs : list call) (c : call) :
  fst (perform c (after cs (__init__ a g d f))) = fst (perform c (__init__ a g d f)).
Proof.
  destruct (after_keeps cs _ (init_cache_ok a g d f)) as [H1 H2].
  rewrite (perform_of_fresh c _ H1), H2, init_fresh. reflexivity.
Qed.

(** X2.  The pattern is compiled once: after a call that returns, the
    tokenizer holds the pattern compiled from its string, its
    configuration is as before, and no later call changes the object. *)
Theorem compiled_once (a : pattern_arg) (g d : bool) (f : Z) (c : call) (r : result) :
  fst (perform c (__init__ a g d f)) = Returns r ->
  let t' := snd (perform c (__init__ a g d f)) in
  (exists p, _regexp t' = Some p /\ Re.compile (getattr_pattern a) 0 = inr p) /\
  fresh t' = __init__ a g d f /\
  (forall c2, snd (perform c2 t') = t').
Proof.
  intros H t'. subst t'. rewrite perform_state, check_regexp_fresh.
  assert (R : exists p, fst (_check_regexp (__init__ a g d f)) = Returns p).
  { destruct c as [txt|txt]; unfold perform, tokenize, span_tokenize, bind in H;
      destruct (_check_regexp (__init__ a g d f)) as [[p|e|] t1]; simpl in H;
      try discriminate; simpl; eauto. }
  destruct R as [p R]. rewrite check_regexp_fresh in R.
  destruct (Re.compile (getattr_pattern a) 0) as [e|p'] eqn:C; simpl in R;
    [discriminate|]. injection R as ->.
  simpl. split; [eauto|]. split; [reflexivity|].
  intros c2. rewrite perform_state. reflexivity.
Qed.

Lemma compiled_once_witness :
  let t' := snd (perform (Tokenize " a") WhitespaceTokenizer) in
  fst (perform (Tokenize " a") WhitespaceTokenizer) = Returns (Tokens [PyStr "a"]) /\
  (exists p, _regexp t' = Some p /\ Re.compile "\s+" 0 = inr p) /\
  fresh t' = WhitespaceTokenizer /\
  (forall c2, snd (perform c2 t') = t').
Proof.
  split; [reflexivity|].
  exact (compiled_once (PatternStr "\s+") true true default_flags (Tokenize " a")
           (Tokens [PyStr "a"]) eq_refl).
Defined.

(** ** The spans of [span_tokenize] *)

Lemma in_order_le : forall ms left len, in_order left ms len -> left <= len.
Proof.
  induction ms as [|m tl IH]; intros left len H; simpl in H; [exact H|].
  destruct H as (H1 & H2 & H3). apply IH in H3. lia.
Qed.

Lemma finditer_loop_ordered p s : forall fuel start ms,
  Re.finditer_loop fuel p s start = Returns ms ->
  forall left, left <= start -> left <= length s -> in_order left ms (length s).
Proof.
  induction fuel as [|fuel IH]; intros start ms H left L1 L2; [discriminate|].
  cbn [Re.finditer_loop] in H.
  destruct (Re.sre_search (Re.code p) s start) as [m|] eqn:E.
  - pose proof (ReFacts.sre_search_bounds _ _ _ _ E) as (B1 & B2 & B3).
    destruct (Re.finditer_loop fuel p s (Re.next_start m)) as [tl| |] eqn:F;
      try discriminate.
    injection H as <-. simpl. split; [lia|]. split; [exact B2|].
    apply (IH _ _ F); [|exact B3].
    unfold Re.next_start. destruct (Re.m_end m =? Re.m_start m); lia.
  - injection H as <-. exact L2.
Qed.

Lemma spans_in_order_weaken : forall spans l l' len,
  l' <= l -> spans_in_order l spans len -> spans_in_order l' spans len.
Proof.
  intros [|[s e] tl] l l' len L H; simpl in *; [exact I|].
  destruct H as (H1 & H2 & H3 & H4). repeat split; try assumption. lia.
Qed.

Lemma spans_in_order_filter (f : nat * nat -> bool) : forall spans l len,
  spans_in_order l spans len -> spans_in_order l (filter f spans) len.
Proof.
  induction spans as [|[s e] tl IH]; intros l len H; simpl in *; [exact I|].
  destruct H as (H1 & H2 & H3 & H4). destruct (f (s, e)); simpl.
  - repeat split; try assumption. apply IH. exact H4.
  - apply IH. apply (spans_in_order_weaken tl e l len); [lia|exact H4].
Qed.

Lemma match_spans_in_order : forall ms left len,
  in_order left ms len -> spans_in_order left (map Re.span ms) len.
Proof.
  induction ms as [|m tl IH]; intros left len H; simpl in *; [exact I|].
  destruct H as (H1 & H2 & H3). pose proof (in_order_le _ _ _ H3).
  repeat split; try assumption. apply IH. exact H3.
Qed.

Lemma gap_spans_in_order : forall ms left len,
  in_order left ms len -> spans_in_order left (gap_spans left ms len) len.
Proof.
  induction ms as [|m tl IH]; intros left len H; simpl in *.
  - repeat split; lia.
  - destruct H as (H1 & H2 & H3). pose proof (in_order_le _ _ _ H3).
    repeat split; try lia.
    apply (spans_in_order_weaken _ (Re.m_end m)); [exact H2|]. apply IH. exact H3.
Qed.

(** X3.  In token mode the spans lie inside the text, each with its start
    at or before its end, and each starting at or after the end of the
    one before: the tokens do not overlap and come from left to right.
    This holds for every pattern. *)
Theorem token_spans_in_order (t : RegexpTokenizer) (txt : string)
  (spans : list (nat * nat)) :
  _gaps t = false ->
  fst (span_tokenize txt t) = Returns spans ->
  spans_in_order 0 spans (length (chars txt)).
Proof.
  intros Hg H. unfold span_tokenize, bind in H.
  destruct (_check_regexp t) as [[c|e|] t'] eqn:E; try discriminate.
  destruct (check_regexp_keeps _ _ _ E) as [G _]. rewrite G, Hg in H. simpl in H.
  unfold Re.finditer in H.
  destruct (Re.finditer_loop _ c (chars txt) 0) as [ms| |] eqn:F; try discriminate.
  injection H as <-. apply match_spans_in_order.
  apply (finditer_loop_ordered _ _ _ _ _ F); lia.
Qed.

Lemma token_spans_in_order_witness :
  fst (span_tokenize "Good $3.88" WordPunctTokenizer)
    = Returns [(0, 4); (5, 6); (6, 7); (7, 8); (8, 10)] /\
  spans_in_order 0 [(0, 4); (5, 6); (6, 7); (7, 8); (8, 10)] 10.
Proof.
  split; [reflexivity|].
  exact (token_spans_in_order WordPunctTokenizer "Good $3.88" _ eq_refl eq_refl).
Defined.

Lemma gap_span_tokenize_ordered (t : RegexpTokenizer) (txt : string)
  (spans : list (nat * nat)) :
  _gaps t = true ->
  fst (span_tokenize txt t) = Returns spans ->
  spans_in_order 0 spans (length (chars txt)).
Proof.
  intros Hg H. unfold span_tokenize, bind, regexp_span_tokenize in H.
  destruct (_check_regexp t) as [[c|e|] t'] eqn:E; try discriminate.
  destruct (check_regexp_keeps _ _ _ E) as [G D]. rewrite G, Hg in H. simpl in H.
  unfold Re.finditer in H.
  destruct (Re.finditer_loop _ c (chars txt) 0) as [ms| |] eqn:F; try discriminate.
  injection H as <-. apply spans_in_order_filter. apply gap_spans_in_order.
  apply (finditer_loop_ordered _ _ _ _ _ F); lia.
Qed.

(** X4.  The same in gap mode, with [regexp_span_tokenize] as the spec
    describes it, whether empty spans are discarded or not and whatever
    the pattern. *)
Theorem gap_spans_are_in_order (t : RegexpTokenizer) (txt : string)
  (spans : list (nat * nat)) :
  _gaps t = true ->
  fst (span_tokenize txt t) = Returns spans ->
  spans_in_order 0 spans (length (chars txt)).
Proof. exact (gap_span_tokenize_ordered t txt spans). Qed.

Lemma gap_spans_are_in_order_witness :
  fst (span_tokenize " a  b " (__init__ (PatternStr "\s+") true false default_flags))
    = Returns [(0, 0); (1, 2); (4, 5); (6, 6)] /\
  spans_in_order 0 [(0, 0); (1, 2); (4, 5); (6, 6)] 6.
Proof.
  split; [reflexivity|].
  exact (gap_spans_are_in_order (__init__ (PatternStr "\s+") true false default_flags)
           " a  b " _ eq_refl eq_refl).
Defined.

(** Whatever its groups, [findall] makes its items from the matches of
    [finditer]. *)
Lemma findall_loop_items p s : forall fuel start,
  Re.findall_loop fuel p s start =
  omap (map (Re.findall_item p s)) (Re.finditer_loop fuel p s start).
Proof.
  induction fuel as [|fuel IH]; intros start; [reflexivity|].
  cbn [Re.findall_loop Re.finditer_loop].
  destruct (start <=? length s) eqn:E.
  - destruct (Re.sre_search (Re.code p) s start) as [m|]; [|reflexivity].
    rewrite IH. destruct (Re.finditer_loop fuel p s (Re.next_start m)); reflexivity.
  - unfold Re.sre_search. rewrite E. reflexivity.
Qed.

(** X5.  In token mode there is one token for each span, for every
    pattern: groups change what a token holds, not how many there are. *)
Theorem token_mode_one_token_per_span (t : RegexpTokenizer) (txt : string)
  (toks : list pyval) (spans : list (nat * nat)) :
  _gaps t = false ->
  fst (tokenize txt t) = Returns toks ->
  fst (span_tokenize txt t) = Returns spans ->
  length toks = length spans.
Proof.
  intros Hg H1 H2. unfold tokenize, span_tokenize, bind in *.
  destruct (_check_regexp t) as [[c|e|] t'] eqn:E; try discriminate.
  destruct (check_regexp_keeps _ _ _ E) as [G _]. rewrite G, Hg in *. simpl in *.
  unfold Re.findall, Re.finditer in *. rewrite findall_loop_items in H1.
  destruct (Re.finditer_loop _ c (chars txt) 0) as [ms| |]; try discriminate.
  simpl in *. injection H1 as <-. injection H2 as <-.
  rewrite !length_map. reflexivity.
Qed.

Lemma token_mode_one_token_per_span_witness :
  let t := __init__ (PatternStr "(a)(b)|c") false true default_flags in
  fst (tokenize "abc" t) = Returns [PyTuple ["a"; "b"]; PyTuple [""; ""]]%string /\
  fst (span_tokenize "abc" t) = Returns [(0, 2); (2, 3)] /\
  length [PyTuple ["a"; "b"]; PyTuple [""; ""]]%string = length [(0, 2); (2, 3)].
Proof.
  intros t. split; [reflexivity|]. split; [reflexivity|].
  exact (token_mode_one_token_per_span t "abc" _ _ eq_refl eq_refl eq_refl).
Defined.

Lemma spans_in_order_le : forall spans l len,
  spans_in_order l spans len -> Forall (fun sp => fst sp <= snd sp) spans.
Proof.
  induction spans as [|[s e] tl IH]; intros l len H; simpl in *; [constructor|].
  destruct H as (H1 & H2 & H3 & H4). constructor; [exact H2|]. apply (IH _ _ H4).
Qed.

(** X6.  In gap mode with [discard_empty], no token is [''] or [None] and
    no span is empty, whatever the pattern and its groups. *)
Theorem discard_empty_leaves_none (t : RegexpTokenizer) (txt : string)
  (toks : list pyval) (spans : list (nat * nat)) :
  _gaps t = true -> _discard_empty t = true ->
  fst (tokenize txt t) = Returns toks ->
  fst (span_tokenize txt t) = Returns spans ->
  Forall (fun v => truthy v = true) toks /\ Forall (fun sp => fst sp < snd sp) spans.
Proof.
  intros Hg Hd H1 H2. split.
  - unfold tokenize, bind in H1.
    destruct (_check_regexp t) as [[c|e|] t'] eqn:E; try discriminate.
    destruct (check_regexp_keeps _ _ _ E) as [G D]. rewrite G, D, Hg, Hd in H1.
    simpl in H1. destruct (Re.split c (chars txt)) as [l| |]; try discriminate.
    injection H1 as <-. apply Forall_forall. intros v Hv.
    apply filter_In in Hv. exact (proj2 Hv).
  - pose proof (spans_in_order_le _ _ _ (gap_span_tokenize_ordered t txt spans Hg H2)) as Le.
    unfold span_tokenize, bind in H2.
    destruct (_check_regexp t) as [[c|e|] t'] eqn:E; try discriminate.
    destruct (check_regexp_keeps _ _ _ E) as [G D]. rewrite G, D, Hg, Hd in H2.
    simpl in H2.
    destruct (regexp_span_tokenize (chars txt) c) as [l| |]; try discriminate.
    injection H2 as <-. rewrite Forall_forall in *. intros [a b] Hv.
    specialize (Le _ Hv). apply filter_In in Hv. destruct Hv as [_ Hv]. simpl in *.
    destruct (a =? b) eqn:Z; [discriminate|]. apply Nat.eqb_neq in Z. lia.
Qed.

Lemma discard_empty_leaves_none_witness :
  fst (tokenize " a  b " WhitespaceTokenizer) = Returns [PyStr "a"; PyStr "b"] /\
  fst (span_tokenize " a  b " WhitespaceTokenizer) = Returns [(1, 2); (4, 5)] /\
  Forall (fun v => truthy v = true) [PyStr "a"; PyStr "b"] /\
  Forall (fun sp => fst sp < snd sp) [(1, 2); (4, 5)].
Proof.
  split; [reflexivity|]. split; [reflexivity|].
  exact (discard_empty_leaves_none WhitespaceTokenizer " a  b " _ _
           eq_refl eq_refl eq_refl eq_refl).
Defined.

Lemma str_chars txt : str (chars txt) = txt.
Proof. apply string_of_list_ascii_of_string. Qed.

Lemma slice_all s : slice s 0 (length s) = s.
Proof. unfold slice. rewrite Nat.sub_0_r. simpl. apply firstn_all. Qed.

Lemma no_match_results (t : RegexpTokenizer) (c : Re.SRE_Pattern) (txt : string) :
  fst (_check_regexp t) = Returns c ->
  Re.sre_search (Re.code c) (chars txt) 0 = None ->
  let len := length (chars txt) in
  let drop := _discard_empty t && (len =? 0) in
  fst (tokenize txt t) =
    Returns (if _gaps t then if drop then [] else [PyStr txt] else []) /\
  fst (span_tokenize txt t) =
    Returns (if _gaps t then if drop then [] else [(0, len)] else []).
Proof.
  intros H N len drop. subst len drop.
  unfold tokenize, span_tokenize, bind, regexp_span_tokenize.
  destruct (_check_regexp t) as [o t'] eqn:E. simpl in H; subst o.
  destruct (check_regexp_keeps _ _ _ E) as [-> ->].
  unfold Re.split, Re.findall, Re.finditer.
  cbn [Re.split_loop Re.findall_loop Re.finditer_loop Nat.leb]. rewrite N.
  rewrite slice_all, str_chars. cbn [obind gap_spans filter].
  destruct (_gaps t); [|split; reflexivity].
  destruct (_discard_empty t); cbn [andb fst filter negb].
  - destruct txt as [|a txt]; split; reflexivity.
  - split; reflexivity.
Qed.

(** X7.  A pattern that matches nowhere in the text: in token mode there
    is no token and no span; in gap mode the whole text is the one token
    and its span the one span, or nothing at all when the text is empty
    and empty tokens are discarded. *)
Theorem no_match_anywhere (t : RegexpTokenizer) (c : Re.SRE_Pattern) (txt : string) :
  fst (_check_regexp t) = Returns c ->
  Re.sre_search (Re.code c) (chars txt) 0 = None ->
  let len := length (chars txt) in
  let drop := _discard_empty t && (len =? 0) in
  fst (tokenize txt t) =
    Returns (if _gaps t then if drop then [] else [PyStr txt] else []) /\
  fst (span_tokenize txt t) =
    Returns (if _gaps t then if drop then [] else [(0, len)] else []).
Proof. exact (no_match_results t c txt). Qed.

Lemma no_match_anywhere_witness :
  let t := __init__ (PatternStr ",") true true default_flags in
  fst (tokenize "a b" t) = Returns [PyStr "a b"] /\
  fst (span_tokenize "a b" t) = Returns [(0, 3)].
Proof.
  exact (no_match_anywhere (__init__ (PatternStr ",") true true default_flags)
           (Re.mkpattern "," 0 0 (Re.LITERAL ",")) "a b" eq_refl eq_refl).
Defined.

(** ** Runs of one class of characters *)

Module ClassFacts.
Import Re ReFacts.

Lemma class_max body q :
  (forall st k, body st k = match_char q st k) ->
  forall n st,
    length (rest st) < n ->
    exists e, repeat_max body n st (fun x => Some x) = Some e
              /\ pos e = pos st + run q (rest st) /\ marks e = marks st.
Proof.
  intros Hb. induction n as [|n IH]; intros st Hn; [lia|].
  cbn [repeat_max]. rewrite Hb. unfold match_char.
  destruct st as [p pv s ms]; simpl in *.
  destruct s as [|c tl]; simpl.
  - eexists; split; [reflexivity|simpl; split; [lia|reflexivity]].
  - destruct (q c) eqn:Ec; simpl.
    + assert (L : (p <? S p) = true) by (apply Nat.ltb_lt; lia). rewrite L.
      destruct (IH (advance c tl (mkstate p pv (c :: tl) ms))) as (e & H1 & H2 & H3).
      { simpl in *; lia. }
      rewrite H1; simpl. exists e; split; [reflexivity|].
      simpl in *; split; [lia|assumption].
    + eexists; split; [reflexivity|simpl; split; [lia|reflexivity]].
Qed.

(** One or more characters of a class: nothing when the text does not
    start with one, the whole run otherwise. *)
Lemma class_plus_none R q p pv s :
  (forall st k, sre_match R st k = match_char q st k) ->
  run q s = 0 ->
  sre_match (SEQ R (MAX_STAR R)) (mkstate p pv s []) (fun x => Some x) = None.
Proof.
  intros HR H. cbn [sre_match]. rewrite HR. unfold match_char; simpl.
  destruct s as [|c tl]; [reflexivity|].
  simpl in H. destruct (q c); [discriminate|reflexivity].
Qed.

Lemma class_plus_some R q p pv s :
  (forall st k, sre_match R st k = match_char q st k) ->
  run q s <> 0 ->
  exists e, sre_match (SEQ R (MAX_STAR R)) (mkstate p pv s []) (fun x => Some x) = Some e
            /\ pos e = p + run q s /\ marks e = [].
Proof.
  intros HR H. cbn [sre_match]. rewrite HR. unfold match_char; simpl.
  destruct s as [|c tl]; [simpl in H; lia|].
  simpl in *. destruct (q c); [|lia].
  destruct (class_max (sre_match R) q HR (S (length tl))
              (advance c tl (mkstate p pv (c :: tl) []))) as (e & H1 & H2 & H3).
  { simpl; lia. }
  simpl in *. exists e; split; [exact H1|]. split; [lia|assumption].
Qed.

Lemma run_le q : forall s, run q s <= length s.
Proof. induction s as [|c tl IH]; simpl; [lia|]. destruct (q c); simpl; lia. Qed.

Lemma forallb_firstn_run q : forall s, forallb q (firstn (run q s) s) = true.
Proof.
  induction s as [|c tl IH]; [reflexivity|]. simpl.
  destruct (q c) eqn:E; simpl; [|reflexivity]. rewrite E. exact IH.
Qed.

Lemma skipn_run_head q : forall s c tl, skipn (run q s) s = c :: tl -> q c = false.
Proof.
  induction s as [|a s IH]; intros c tl; simpl; [discriminate|].
  destruct (q a) eqn:E; simpl.
  - apply IH.
  - intros H; injection H as <- _. exact E.
Qed.

Lemma filter_all (f : ascii -> bool) : forall s, forallb f s = true -> filter f s = s.
Proof.
  induction s as [|c tl IH]; [reflexivity|]. simpl. intros H.
  apply andb_true_iff in H as [Hc Ht]. rewrite Hc, IH by assumption. reflexivity.
Qed.

Lemma filter_none (f g : ascii -> bool) : forall s,
  (forall c, g c = true -> f c = false) -> forallb g s = true -> filter f s = [].
Proof.
  induction s as [|c tl IH]; [reflexivity|]. simpl. intros D H.
  apply andb_true_iff in H as [Hc Ht]. rewrite (D c Hc). apply IH; assumption.
Qed.

Lemma forallb_imp (f g : ascii -> bool) : forall s,
  (forall c, f c = true -> g c = true) -> forallb f s = true -> forallb g s = true.
Proof.
  induction s as [|c tl IH]; [reflexivity|]. simpl. intros D H.
  apply andb_true_iff in H as [Hc Ht]. rewrite (D c Hc), IH by assumption. reflexivity.
Qed.

(** No character is both whitespace and a word character. *)
Lemma space_is_no_word c : is_space c = true -> is_word c = false.
Proof. destruct c as [[] [] [] [] [] [] [] []]; vm_compute; congruence. Qed.

Lemma word_code_match st k : sre_match word_code st k = match_char is_word st k.
Proof.
  unfold word_code. cbn [sre_match]. apply WhitespaceFacts.match_char_ext.
  intros c. simpl. destruct (is_word c); reflexivity.
Qed.

Lemma punct_code_match st k : sre_match punct_code st k = match_char is_punct st k.
Proof.
  unfold punct_code. cbn [sre_match]. apply WhitespaceFacts.match_char_ext.
  intros c. unfold is_punct. simpl. destruct (is_word c), (is_space c); reflexivity.
Qed.

Lemma class_of_head c : is_space c = false -> class_of c c = true.
Proof.
  intros H. unfold class_of. destruct (is_word c) eqn:W; [exact W|].
  unfold is_punct. rewrite W, H. reflexivity.
Qed.

Lemma class_of_space c : is_space c = true -> class_of c c = false.
Proof.
  intros H. unfold class_of. rewrite (space_is_no_word c H).
  unfold is_punct. rewrite H, orb_true_r. reflexivity.
Qed.

Lemma class_of_not_space c x : class_of c x = true -> not_space x = true.
Proof.
  unfold class_of, not_space, is_punct. destruct (is_word c); intros H.
  - destruct (is_space x) eqn:S; [|reflexivity].
    rewrite (space_is_no_word x S) in H. discriminate.
  - destruct (is_space x); [|reflexivity]. rewrite orb_true_r in H. discriminate.
Qed.

Lemma class_of_token c w :
  w <> [] -> forallb (class_of c) w = true -> is_wordpunct_token w = true.
Proof.
  intros N H. unfold is_wordpunct_token. destruct w as [|a w]; [congruence|].
  cbn [negb andb]. unfold class_of in H. destruct (is_word c); rewrite H.
  - reflexivity.
  - apply orb_true_r.
Qed.

(** A match of the word and punctuation pattern at an offset: the run of
    the class of the character there, nothing on whitespace or at the end
    of the text. *)
Lemma wordpunct_match_none p pv s :
  run not_space s = 0 ->
  sre_match wordpunct_code (mkstate p pv s []) (fun x => Some x) = None.
Proof.
  intros H. unfold wordpunct_code. cbn [sre_match].
  pose proof (class_plus_none word_code is_word p pv s word_code_match) as W.
  pose proof (class_plus_none punct_code is_punct p pv s punct_code_match) as P.
  cbn [sre_match] in W, P.
  destruct s as [|c tl]; [rewrite W, P; reflexivity|].
  simpl in H. unfold not_space in H. destruct (is_space c) eqn:S; [|discriminate].
  rewrite W, P; [reflexivity| |].
  - simpl. unfold is_punct. rewrite S, orb_true_r. reflexivity.
  - simpl. rewrite (space_is_no_word c S). reflexivity.
Qed.

Lemma wordpunct_match_some p pv c tl :
  is_space c = false ->
  exists e, sre_match wordpunct_code (mkstate p pv (c :: tl) []) (fun x => Some x) = Some e
            /\ pos e = p + run (class_of c) (c :: tl) /\ marks e = [].
Proof.
  intros S. unfold wordpunct_code. cbn [sre_match].
  unfold class_of. destruct (is_word c) eqn:W.
  - destruct (class_plus_some word_code is_word p pv (c :: tl) word_code_match)
      as (e & H1 & H2 & H3); [simpl; rewrite W; lia|].
    cbn [sre_match] in H1. rewrite H1. simpl. eauto.
  - pose proof (class_plus_none word_code is_word p pv (c :: tl) word_code_match) as N.
    cbn [sre_match] in N. rewrite N by (simpl; rewrite W; reflexivity).
    destruct (class_plus_some punct_code is_punct p pv (c :: tl) punct_code_match)
      as (e & H1 & H2 & H3).
    { simpl. unfold is_punct. rewrite W, S. simpl. lia. }
    cbn [sre_match] in H1. rewrite H1. simpl. eauto.
Qed.

(** The first match from an offset on: the first run after the
    whitespace there. *)
Lemma wordpunct_search_from : forall s p pv,
  search_from wordpunct_code p pv s =
  match skipn (run is_space s) s with
  | [] => None
  | c :: tl =>
      Some (mkmatch (p + run is_space s)
              (p + run is_space s + run (class_of c) (c :: tl)) [])
  end.
Proof.
  induction s as [|c tl IH]; intros p pv.
  - reflexivity.
  - cbn [search_from run]. destruct (is_space c) eqn:S.
    + rewrite wordpunct_match_none by (simpl; unfold not_space; rewrite S; reflexivity).
      rewrite IH. cbn [skipn]. destruct (skipn (run is_space tl) tl); [reflexivity|].
      rewrite <- !Nat.add_succ_comm. reflexivity.
    + destruct (wordpunct_match_some p pv c tl S) as (e & H1 & H2 & H3).
      rewrite H1. cbn [skipn]. rewrite Nat.add_0_r, H2, H3. reflexivity.
Qed.

Lemma wordpunct_search s start :
  start <= length s ->
  sre_search wordpunct_code s start =
  let suf := skipn start s in
  match skipn (run is_space suf) suf with
  | [] => None
  | c :: tl =>
      Some (mkmatch (start + run is_space suf)
              (start + run is_space suf + run (class_of c) (c :: tl)) [])
  end.
Proof.
  intros H. unfold sre_search. apply Nat.leb_le in H. rewrite H.
  apply wordpunct_search_from.
Qed.

(** The tokens of the word and punctuation pattern from an offset on. *)
Lemma wordpunct_findall_loop s : forall fuel start,
  start <= length s -> S (S (length s)) <= fuel + start ->
  exists ws,
    findall_loop fuel wordpunct_pattern s start = Returns (map token_of ws)
    /\ concat ws = filter not_space (skipn start s)
    /\ Forall (fun w => is_wordpunct_token w = true) ws.
Proof.
  induction fuel as [|fuel IH]; intros start Hs Hf; [lia|].
  cbn [findall_loop]. apply Nat.leb_le in Hs as Hb. rewrite Hb.
  change (code wordpunct_pattern) with wordpunct_code.
  rewrite wordpunct_search by assumption. cbv zeta.
  set (suf := skipn start s).
  assert (Lsuf : length suf = length s - start) by apply length_skipn.
  pose proof (firstn_skipn (run is_space suf) suf) as Dec.
  pose proof (forallb_firstn_run is_space suf) as Hsp.
  pose proof (run_le is_space suf) as Hrl.
  assert (Fsp : filter not_space (firstn (run is_space suf) suf) = []).
  { apply (filter_none not_space is_space); [|exact Hsp].
    intros c Hc. unfold not_space. rewrite Hc. reflexivity. }
  destruct (skipn (run is_space suf) suf) as [|c r] eqn:E.
  - exists []. split; [reflexivity|]. split; [|constructor].
    rewrite app_nil_r in Dec. rewrite <- Dec. rewrite Fsp. reflexivity.
  - pose proof (skipn_run_head is_space _ _ _ E) as Hc.
    pose proof (class_of_head c Hc) as Hcc.
    set (L := run (class_of c) (c :: r)).
    assert (L1 : 1 <= L) by (unfold L; simpl; rewrite Hcc; lia).
    pose proof (run_le (class_of c) (c :: r)) as L2. fold L in L2.
    assert (Ltl : length suf = run is_space suf + length (c :: r)).
    { rewrite <- Dec at 1. rewrite length_app, length_firstn. lia. }
    assert (N : next_start (mkmatch (start + run is_space suf)
                             (start + run is_space suf + L) []) =
                start + run is_space suf + L).
    { unfold next_start. cbn [m_start m_end].
      destruct (start + run is_space suf + L =? start + run is_space suf) eqn:Z;
        [apply Nat.eqb_eq in Z; lia|reflexivity]. }
    rewrite N.
    destruct (IH (start + run is_space suf + L)) as (ws & Hw & Hcat & Hall); [lia|lia|].
    rewrite Hw. cbn [obind].
    assert (Sk : skipn (start + run is_space suf) s = c :: r).
    { rewrite Nat.add_comm, <- skipn_skipn. exact E. }
    assert (Sl : slice s (start + run is_space suf) (start + run is_space suf + L)
                 = firstn L (c :: r)).
    { unfold slice. rewrite Sk. f_equal. lia. }
    assert (Sk2 : skipn (start + run is_space suf + L) s = skipn L (c :: r)).
    { replace (start + run is_space suf + L) with (L + (start + run is_space suf)) by lia.
      rewrite <- skipn_skipn, Sk. reflexivity. }
    pose proof (forallb_firstn_run (class_of c) (c :: r)) as Hcls. fold L in Hcls.
    exists (firstn L (c :: r) :: ws). split; [|split].
    + unfold findall_item. cbn [groups wordpunct_pattern m_start m_end map].
      rewrite Sl. reflexivity.
    + cbn [concat]. rewrite Hcat, Sk2.
      rewrite <- Dec at 1. rewrite filter_app, Fsp. cbn [app].
      rewrite <- (firstn_skipn L (c :: r)) at 3. rewrite filter_app. f_equal.
      symmetry. apply filter_all.
      apply (forallb_imp (class_of c)); [apply class_of_not_space|exact Hcls].
    + constructor; [|exact Hall].
      apply (class_of_token c); [|exact Hcls].
      destruct L; [lia|]. discriminate.
Qed.

End ClassFacts.

(** ** What a match consumes *)

Module ConsumeFacts.
Import Re ReFacts.

Lemma consumes_refl st : consumes st [] st.
Proof. split; [reflexivity|simpl; lia]. Qed.

Lemma consumes_trans a p b q c :
  consumes a p b -> consumes b q c -> consumes a (p ++ q) c.
Proof.
  unfold consumes. intros [H1 H2] [H3 H4]. split.
  - rewrite H1, H3, app_assoc. reflexivity.
  - rewrite length_app. lia.
Qed.

Lemma match_char_inv q st k res :
  match_char q st k = Some res ->
  exists c tl, rest st = c :: tl /\ q c = true /\ k (advance c tl st) = Some res.
Proof.
  unfold match_char. destruct (rest st) as [|c tl]; [discriminate|].
  destruct (q c) eqn:E; [|discriminate]. intros H. exists c, tl. auto.
Qed.

Lemma match_char_consuming q : consuming (match_char q).
Proof.
  intros st k res H. apply match_char_inv in H as (c & tl & R & _ & H).
  exists [c], (advance c tl st). split; [|exact H].
  split; [rewrite R; reflexivity|simpl; lia].
Qed.

Lemma guard_consuming (b : bool) st (k : cont) res :
  (if b then k st else None) = Some res ->
  exists pre st', consumes st pre st' /\ k st' = Some res.
Proof.
  destruct b; [|discriminate]. intros H. exists [], st. split; [apply consumes_refl|exact H].
Qed.

Lemma repeat_max_consuming body : consuming body -> forall n, consuming (repeat_max body n).
Proof.
  intros Hb n; induction n as [|n IH]; intros st k res H; simpl in H.
  - exists [], st; split; [apply consumes_refl|exact H].
  - apply orelse_some in H as [H|H].
    + apply Hb in H as (p1 & st1 & R1 & H).
      destruct (pos st <? pos st1).
      * apply IH in H as (p2 & st2 & R2 & H). exists (p1 ++ p2), st2; split; [|exact H].
        eapply consumes_trans; eassumption.
      * exists p1, st1; auto.
    + exists [], st; split; [apply consumes_refl|exact H].
Qed.

Lemma repeat_min_consuming body : consuming body -> forall n, consuming (repeat_min body n).
Proof.
  intros Hb n; induction n as [|n IH]; intros st k res H; simpl in H.
  - exists [], st; split; [apply consumes_refl|exact H].
  - apply orelse_some in H as [H|H].
    + exists [], st; split; [apply consumes_refl|exact H].
    + apply Hb in H as (p1 & st1 & R1 & H).
      destruct (pos st <? pos st1); [|discriminate].
      apply IH in H as (p2 & st2 & R2 & H). exists (p1 ++ p2), st2; split; [|exact H].
      eapply consumes_trans; eassumption.
Qed.

(** A match goes forward over a piece of the text, whatever the pattern. *)
Lemma sre_match_consuming r : consuming (sre_match r).
Proof.
  induction r; intros st k res H; cbn [sre_match] in H;
    try (apply match_char_consuming in H; exact H);
    try (apply guard_consuming in H; exact H).
  - exists [], st; split; [apply consumes_refl|exact H].
  - apply IHr1 in H as (p1 & st1 & R1 & H). apply IHr2 in H as (p2 & st2 & R2 & H).
    exists (p1 ++ p2), st2; split; [eapply consumes_trans; eassumption|exact H].
  - apply orelse_some in H as [H|H]; [apply IHr1 in H|apply IHr2 in H]; exact H.
  - apply (repeat_max_consuming _ IHr) in H; exact H.
  - apply (repeat_min_consuming _ IHr) in H; exact H.
  - apply IHr in H as (p1 & st1 & R1 & H).
    exists p1, (set_mark group (pos st) (pos st1) st1); split; [|exact H].
    exact R1.
Qed.

Lemma newline_inv c : Ascii.eqb newline c = true -> c = newline.
Proof. intros H. apply Ascii.eqb_eq in H. congruence. Qed.

(** A match of the blank line pattern goes over two line feeds. *)
Lemma blankline_match st e :
  sre_match blankline_code st (fun x => Some x) = Some e ->
  exists pre, consumes st pre e /\ 2 <= count_occ ascii_dec pre newline.
Proof.
  unfold blankline_code. cbn [sre_match]. intros H.
  apply (repeat_max_consuming _ (sre_match_consuming space_code)) in H
    as (p1 & st1 & R1 & H).
  apply match_char_inv in H as (c1 & t1 & E1 & N1 & H). apply newline_inv in N1; subst c1.
  apply (repeat_max_consuming _ (sre_match_consuming space_code)) in H
    as (p2 & st2 & R2 & H).
  apply match_char_inv in H as (c2 & t2 & E2 & N2 & H). apply newline_inv in N2; subst c2.
  apply (repeat_max_consuming _ (sre_match_consuming space_code)) in H
    as (p3 & st3 & R3 & H).
  injection H as ->.
  assert (A1 : consumes st1 [newline] (advance newline t1 st1))
    by (split; [rewrite E1; reflexivity|simpl; lia]).
  assert (A2 : consumes st2 [newline] (advance newline t2 st2))
    by (split; [rewrite E2; reflexivity|simpl; lia]).
  exists (p1 ++ [newline] ++ p2 ++ [newline] ++ p3). split.
  - repeat (eapply consumes_trans; [eassumption|]). exact R3.
  - rewrite !count_occ_app. simpl.
    destruct (ascii_dec newline newline); [lia|congruence].
Qed.

Lemma count_occ_le_length (l : text) c : count_occ ascii_dec l c <= length l.
Proof.
  induction l as [|a l IH]; simpl; [lia|]. destruct (ascii_dec a c); lia.
Qed.

Lemma blankline_search_from : forall s p pv m,
  search_from blankline_code p pv s = Some m ->
  m_start m + 2 <= m_end m /\ 2 <= count_occ ascii_dec s newline.
Proof.
  induction s as [|c tl IH]; intros p pv m H; cbn [search_from] in H.
  - destruct (sre_match blankline_code (mkstate p pv [] []) (fun st => Some st))
      as [e|] eqn:E; [|discriminate].
    apply blankline_match in E as (pre & [C1 C2] & N). simpl in *.
    injection H as <-. simpl.
    pose proof (count_occ_le_length pre newline).
    apply (f_equal (@length ascii)) in C1. rewrite length_app in C1. simpl in C1. lia.
  - destruct (sre_match blankline_code (mkstate p pv (c :: tl) []) (fun st => Some st))
      as [e|] eqn:E.
    + apply blankline_match in E as (pre & [C1 C2] & N). simpl in C1, C2.
      injection H as <-. cbn [m_start m_end].
      pose proof (count_occ_le_length pre newline). split; [lia|].
      rewrite C1, count_occ_app. lia.
    + apply IH in H as [H1 H2]. split; [exact H1|].
      simpl. destruct (ascii_dec c newline); lia.
Qed.

Lemma count_occ_skipn (s : text) c n :
  count_occ ascii_dec (skipn n s) c <= count_occ ascii_dec s c.
Proof.
  rewrite <- (firstn_skipn n s) at 2. rewrite count_occ_app. lia.
Qed.

Lemma blankline_search s start m :
  sre_search blankline_code s start = Some m ->
  m_start m + 2 <= m_end m /\ 2 <= count_occ ascii_dec s newline.
Proof.
  unfold sre_search. destruct (start <=? length s); [|discriminate].
  intros H. apply blankline_search_from in H as [H1 H2]. split; [exact H1|].
  pose proof (count_occ_skipn s newline start). lia.
Qed.

End ConsumeFacts.

(** ** The presets *)

Lemma blankline_matches_nonempty s start m :
  Re.sre_search blankline_code s start = Some m -> Re.m_start m <> Re.m_end m.
Proof. intros H. apply ConsumeFacts.blankline_search in H. lia. Qed.

(** X8.  The three presets obey the law of spans and tokens on every
    text, and so never raise: the slices of the spans of [span_tokenize]
    are the tokens of [tokenize]. *)
Theorem presets_spans_are_tokens (txt : string) :
  (exists spans,
     fst (span_tokenize txt WhitespaceTokenizer) = Returns spans /\
     fst (tokenize txt WhitespaceTokenizer) = Returns (slices txt spans)) /\
  (exists spans,
     fst (span_tokenize txt BlanklineTokenizer) = Returns spans /\
     fst (tokenize txt BlanklineTokenizer) = Returns (slices txt spans)) /\
  (exists spans,
     fst (span_tokenize txt WordPunctTokenizer) = Returns spans /\
     fst (tokenize txt WordPunctTokenizer) = Returns (slices txt spans)).
Proof.
  split; [|split].
  - apply (gap_mode_law WhitespaceTokenizer whitespace_pattern txt); try reflexivity.
    intros start m. apply whitespace_matches_nonempty.
  - apply (gap_mode_law BlanklineTokenizer blankline_pattern txt); try reflexivity.
    intros start m. apply blankline_matches_nonempty.
  - apply (token_mode_law WordPunctTokenizer wordpunct_pattern txt); reflexivity.
Qed.

Lemma concat_words : forall s cur,
  concat (words cur s) = rev cur ++ filter not_space s.
Proof.
  induction s as [|c tl IH]; intros cur; simpl.
  - destruct cur; simpl; rewrite ?app_nil_r; reflexivity.
  - unfold not_space at 1. destruct (Re.is_space c); simpl.
    + destruct cur; simpl; rewrite IH; reflexivity.
    + rewrite IH. simpl. rewrite <- app_assoc. reflexivity.
Qed.

(** X9.  The tokens of the whitespace preset are the maximal runs of
    characters that are not whitespace: none is empty, none holds
    whitespace, and put together they are the text without its
    whitespace. *)
Theorem whitespace_tokens (txt : string) :
  let ws := words [] (chars txt) in
  fst (tokenize txt WhitespaceTokenizer) = Returns (map token_of ws) /\
  Forall (fun w => is_word_text w = true) ws /\
  concat ws = filter not_space (chars txt).
Proof.
  cbv zeta. split; [|split].
  - change WhitespaceTokenizer with (whitespace_tokenizer false).
    rewrite WhitespaceFacts.tokenize_whitespace. reflexivity.
  - apply WhitespaceFacts.words_are_words. reflexivity.
  - apply concat_words.
Qed.

(** X10.  The tokens of the word and punctuation preset: none is empty,
    each is made of word characters only or of characters that are
    neither word characters nor whitespace only, and put together they
    are the text without its whitespace. *)
Theorem wordpunct_tokens (txt : string) :
  exists ws,
    fst (tokenize txt WordPunctTokenizer) = Returns (map token_of ws) /\
    Forall (fun w => is_wordpunct_token w = true) ws /\
    concat ws = filter not_space (chars txt).
Proof.
  destruct (ClassFacts.wordpunct_findall_loop (chars txt) (S (S (length (chars txt)))) 0)
    as (ws & H1 & H2 & H3); [lia|lia|].
  exists ws. split; [|split; [exact H3|exact H2]].
  unfold tokenize, bind, WordPunctTokenizer. rewrite check_regexp_fresh.
  cbn [getattr_pattern]. rewrite compile_wordpunct. cbn [_gaps fst].
  exact H1.
Qed.

(** X11.  One line feed does not end a token of the blank line preset: a
    text with fewer than two line feeds is one token, whole, with the one
    span of the whole text (and no token when the text is empty). *)
Theorem blankline_needs_two_line_feeds (txt : string) :
  count_occ ascii_dec (chars txt) Re.newline < 2 ->
  let len := length (chars txt) in
  fst (tokenize txt BlanklineTokenizer) = Returns (if len =? 0 then [] else [PyStr txt]) /\
  fst (span_tokenize txt BlanklineTokenizer) = Returns (if len =? 0 then [] else [(0, len)]).
Proof.
  intros H.
  assert (N : Re.sre_search (Re.code blankline_pattern) (chars txt) 0 = None).
  { destruct (Re.sre_search (Re.code blankline_pattern) (chars txt) 0) as [m|] eqn:E;
      [|reflexivity].
    apply ConsumeFacts.blankline_search in E. lia. }
  exact (no_match_results BlanklineTokenizer blankline_pattern txt eq_refl N).
Qed.

Lemma blankline_needs_two_line_feeds_witness :
  fst (tokenize ("line one" ++ nl ++ "line two") BlanklineTokenizer)
    = Returns [PyStr ("line one" ++ nl ++ "line two")] /\
  fst (span_tokenize ("line one" ++ nl ++ "line two") BlanklineTokenizer)
    = Returns [(0, 17)].
Proof.
  apply (blankline_needs_two_line_feeds ("line one" ++ nl ++ "line two")).
  vm_compute. lia.
Defined.

(** ** The functions of the module *)

(** What holds of the two tokenizers of the module after any calls. *)
Lemma module_after_keeps : forall cs m,
  cache_ok (blankline_instance m) -> cache_ok (wordpunct_instance m) ->
  cache_ok (blankline_instance (module_after cs m)) /\
  cache_ok (wordpunct_instance (module_after cs m)) /\
  fresh (blankline_instance (module_after cs m)) = fresh (blankline_instance m) /\
  fresh (wordpunct_instance (module_after cs m)) = fresh (wordpunct_instance m).
Proof.
  induction cs as [|c cs IH]; intros m Hb Hw; [auto|].
  cbn [module_after].
  assert (K : cache_ok (blankline_instance (snd (module_perform c m))) /\
              cache_ok (wordpunct_instance (snd (module_perform c m))) /\
              fresh (blankline_instance (snd (module_perform c m)))
                = fresh (blankline_instance m) /\
              fresh (wordpunct_instance (snd (module_perform c m)))
                = fresh (wordpunct_instance m)).
  { destruct c as [txt|txt]; unfold module_perform, blankline_tokenize, wordpunct_tokenize.
    - pose proof (tokenize_state txt (blankline_instance m)) as S.
      destruct (tokenize txt (blankline_instance m)) as [o t]. simpl in *. subst t.
      destruct (_check_regexp (blankline_instance m)) as [o' t'] eqn:E.
      destruct (check_regexp_state _ _ _ Hb E). simpl. auto.
    - pose proof (tokenize_state txt (wordpunct_instance m)) as S.
      destruct (tokenize txt (wordpunct_instance m)) as [o t]. simpl in *. subst t.
      destruct (_check_regexp (wordpunct_instance m)) as [o' t'] eqn:E.
      destruct (check_regexp_state _ _ _ Hw E). simpl. auto. }
  destruct K as (K1 & K2 & K3 & K4).
  destruct (IH _ K1 K2) as (I1 & I2 & I3 & I4).
  repeat split; try assumption; congruence.
Qed.

(** X12.  [blankline_tokenize] and [wordpunct_tokenize] work on one
    tokenizer each, shared by all calls; whatever was called before, they
    return the tokens a new preset returns, and never raise. *)
Theorem module_functions_keep_no_history (cs : list module_call) (txt : string) :
  let m := module_after cs module_loaded in
  fst (blankline_tokenize txt m) = fst (tokenize txt BlanklineTokenizer) /\
  fst (wordpunct_tokenize txt m) = fst (tokenize txt WordPunctTokenizer) /\
  returns (fst (blankline_tokenize txt m)) = true /\
  returns (fst (wordpunct_tokenize txt m)) = true.
Proof.
  cbv zeta.
  destruct (module_after_keeps cs module_loaded I I) as (H1 & H2 & H3 & H4).
  assert (B : fst (blankline_tokenize txt (module_after cs module_loaded))
              = fst (tokenize txt BlanklineTokenizer)).
  { unfold blankline_tokenize.
    rewrite (tokenize_of_fresh txt _ H1), H3.
    change (fresh (blankline_instance module_loaded)) with BlanklineTokenizer.
    destruct (tokenize txt BlanklineTokenizer); reflexivity. }
  assert (W : fst (wordpunct_tokenize txt (module_after cs module_loaded))
              = fst (tokenize txt WordPunctTokenizer)).
  { unfold wordpunct_tokenize.
    rewrite (tokenize_of_fresh txt _ H2), H4.
    change (fresh (wordpunct_instance module_loaded)) with WordPunctTokenizer.
    destruct (tokenize txt WordPunctTokenizer); reflexivity. }
  rewrite B, W. repeat split.
  - destruct (tokenize_returns BlanklineTokenizer blankline_pattern txt eq_refl) as [l ->].
    reflexivity.
  - destruct (tokenize_returns WordPunctTokenizer wordpunct_pattern txt eq_refl) as [l ->].
    reflexivity.
Qed.


(** ** [main.py] *)

Lemma append_assoc (a b c : string) : ((a ++ b) ++ c = a ++ (b ++ c))%string.
Proof. induction a as [|x a IH]; simpl; [reflexivity|]. rewrite IH. reflexivity. Qed.

Lemma translate_loop_closed tr msg : forall langs s,
  Main.translate_loop tr msg langs s =
  if existsb (Main.fails tr msg) langs then None
  else Some (s ++ String.concat "" (map (Main.reply_line tr msg) langs))%string.
Proof.
  induction langs as [|lang tl IH]; intros s.
  - simpl. f_equal. induction s as [|x s IHs]; simpl; [reflexivity|].
    rewrite <- IHs. reflexivity.
  - cbn [Main.translate_loop existsb map]. unfold Main.fails at 1, Main.reply_line at 1.
    assert (J : forall x, (x ++ String.concat "" (map (Main.reply_line tr msg) tl)
                           = String.concat "" (x :: map (Main.reply_line tr msg) tl))%string).
    { intros x. cbn [String.concat]. destruct (map (Main.reply_line tr msg) tl); simpl.
      - induction x as [|y x IHx]; simpl; [reflexivity|]. rewrite IHx. reflexivity.
      - reflexivity. }
    destruct (tr msg lang) as [translated| |]; cbn [orb].
    + rewrite IH. destruct (existsb (Main.fails tr msg) tl); [reflexivity|].
      rewrite append_assoc, J. reflexivity.
    + rewrite IH. destruct (existsb (Main.fails tr msg) tl); [reflexivity|].
      rewrite append_assoc, J. reflexivity.
    + reflexivity.
Qed.

(** X14.  The reply of [translate]: when a translation raises anything
    but [NotTranslated], the error message alone, without the lines made
    before; otherwise a line feed and one line for each language, in the
    order of [lang_list], the message itself standing for a language it
    was not translated to.  A request without [Body] is answered as one
    whose body is the text [None].  The reply is always wrapped. *)
Theorem translate_reply (tr : string -> string -> Main.translation) (body : option string) :
  let msg := match body with Some b => b | None => "None"%string end in
  Main.translate tr body =
  Main.get_xml_return
    (if existsb (Main.fails tr msg) Main.lang_list then Main.error_message
     else (nl ++ Main.reply_line tr msg "en" ++ Main.reply_line tr msg "zh"
           ++ Main.reply_line tr msg "fr")%string).
Proof.
  cbv zeta. unfold Main.translate. rewrite translate_loop_closed.
  destruct (existsb _ Main.lang_list); reflexivity.
Qed.

(** ** What the blank line preset drops *)

Module BlanklineFacts.
Import Re ReFacts ConsumeFacts.

(** A repetition of one class of characters goes over characters of
    that class. *)
Lemma class_star_consumes body q :
  (forall st k, body st k = match_char q st k) ->
  forall n st k res,
    repeat_max body n st k = Some res ->
    exists pre st', consumes st pre st' /\ forallb q pre = true /\ k st' = Some res.
Proof.
  intros Hb. induction n as [|n IH]; intros st k res H; simpl in H.
  - exists [], st. split; [apply consumes_refl|auto].
  - apply orelse_some in H as [H|H].
    + rewrite Hb in H. apply match_char_inv in H as (c & tl & R & Q & H).
      assert (A : consumes st [c] (advance c tl st))
        by (split; [rewrite R; reflexivity|simpl; lia]).
      destruct (pos st <? pos (advance c tl st)).
      * apply IH in H as (p2 & st2 & R2 & Q2 & H).
        exists ([c] ++ p2), st2. split; [eapply consumes_trans; eassumption|].
        split; [simpl; rewrite Q, Q2; reflexivity|exact H].
      * exists [c], (advance c tl st). split; [exact A|].
        split; [simpl; rewrite Q; reflexivity|exact H].
    + exists [], st. split; [apply consumes_refl|auto].
Qed.

Lemma newline_is_space : is_space newline = true.
Proof. reflexivity. Qed.

(** A match of the blank line pattern goes over whitespace only. *)
Lemma blankline_match_space st e :
  sre_match blankline_code st (fun x => Some x) = Some e ->
  exists pre, consumes st pre e /\ forallb is_space pre = true.
Proof.
  unfold blankline_code. cbn [sre_match]. intros H.
  pose proof WhitespaceFacts.space_code_match as SC.
  apply (class_star_consumes _ is_space SC) in H as (p1 & st1 & R1 & Q1 & H).
  apply match_char_inv in H as (c1 & t1 & E1 & N1 & H). apply newline_inv in N1; subst c1.
  apply (class_star_consumes _ is_space SC) in H as (p2 & st2 & R2 & Q2 & H).
  apply match_char_inv in H as (c2 & t2 & E2 & N2 & H). apply newline_inv in N2; subst c2.
  apply (class_star_consumes _ is_space SC) in H as (p3 & st3 & R3 & Q3 & H).
  injection H as ->.
  assert (A1 : consumes st1 [newline] (advance newline t1 st1))
    by (split; [rewrite E1; reflexivity|simpl; lia]).
  assert (A2 : consumes st2 [newline] (advance newline t2 st2))
    by (split; [rewrite E2; reflexivity|simpl; lia]).
  exists (p1 ++ [newline] ++ p2 ++ [newline] ++ p3). split.
  - repeat (eapply consumes_trans; [eassumption|]). exact R3.
  - rewrite !forallb_app, Q1, Q2, Q3. reflexivity.
Qed.

Lemma blankline_search_from_space : forall s p pv m,
  search_from blankline_code p pv s = Some m ->
  forallb is_space (firstn (m_end m - m_start m) (skipn (m_start m - p) s)) = true.
Proof.
  induction s as [|c tl IH]; intros p pv m H.
  - pose proof (search_from_bounds _ _ _ _ _ H) as (B1 & B2 & B3). simpl in B3.
    replace (m_end m - m_start m) with 0 by lia. reflexivity.
  - pose proof (search_from_bounds _ _ _ _ _ H) as (B1 & B2 & B3).
    cbn [search_from] in H.
    destruct (sre_match blankline_code (mkstate p pv (c :: tl) []) (fun st => Some st))
      as [e|] eqn:E.
    + apply blankline_match_space in E as (pre & [C1 C2] & Q). simpl in C1, C2.
      injection H as <-. cbn [m_start m_end].
      rewrite Nat.sub_diag. cbn [skipn]. rewrite C1.
      replace (pos e - p) with (length pre) by lia.
      rewrite firstn_app, Nat.sub_diag, firstn_all. simpl. rewrite app_nil_r. exact Q.
    + pose proof (search_from_bounds _ _ _ _ _ H) as (B4 & _).
      apply IH in H.
      replace (m_start m - p) with (S (m_start m - S p)) by lia. exact H.
Qed.

(** The separators of the blank line preset are whitespace. *)
Lemma blankline_search_space s start m :
  sre_search blankline_code s start = Some m ->
  forallb is_space (slice s (m_start m) (m_end m)) = true.
Proof.
  intros H. pose proof (sre_search_bounds _ _ _ _ H) as (B1 & B2 & B3).
  unfold sre_search in H. destruct (start <=? length s); [|discriminate].
  apply blankline_search_from_space in H. rewrite skipn_skipn in H.
  unfold slice. replace (m_start m) with (m_start m - start + start) at 2 by lia.
  exact H.
Qed.

Lemma skipn_slices (s : text) a b c :
  a <= b -> b <= c -> c <= length s ->
  skipn a s = slice s a b ++ slice s b c ++ skipn c s.
Proof.
  intros H1 H2 H3. unfold slice.
  rewrite <- (firstn_skipn (b - a) (skipn a s)) at 1. f_equal.
  rewrite skipn_skipn. replace (b - a + a) with b by lia.
  rewrite <- (firstn_skipn (c - b) (skipn b s)) at 1. f_equal.
  rewrite skipn_skipn. replace (c - b + b) with c by lia. reflexivity.
Qed.

(** The tokens of the blank line preset from an offset on. *)
Lemma blankline_split_loop s : forall fuel start,
  start <= length s -> S (S (length s)) <= fuel + start ->
  exists ws,
    omap (filter truthy) (split_loop fuel blankline_pattern s start start)
    = Returns (map token_of ws)
    /\ filter not_space (concat ws) = filter not_space (skipn start s)
    /\ Forall (fun w => w <> []) ws.
Proof.
  induction fuel as [|fuel IH]; intros start Hs Hf; [lia|].
  cbn [split_loop]. change (code blankline_pattern) with blankline_code.
  destruct (sre_search blankline_code s start) as [m|] eqn:E.
  - pose proof (sre_search_bounds _ _ _ _ E) as (B1 & B2 & B3).
    pose proof (blankline_search _ _ _ E) as [N _].
    pose proof (blankline_search_space _ _ _ E) as Sp.
    assert (Z : (m_start m =? m_end m) = false) by (apply Nat.eqb_neq; lia).
    rewrite Z.
    destruct (IH (m_end m)) as (ws & Hw & Hcat & Hall); [lia|lia|].
    apply WhitespaceFacts.omap_returns in Hw as (x & Hx & Fx).
    rewrite Hx. unfold omap; cbn [obind].
    change (map (getslice s m false) (seq 1 (groups blankline_pattern))) with (@nil pyval).
    cbn [app].
    change (PyStr (str (slice s start (m_start m))))
      with (token_of (slice s start (m_start m))).
    rewrite WhitespaceFacts.filter_truthy_token, Fx, <- map_app.
    eexists. split; [reflexivity|]. split.
    + rewrite concat_app, filter_app, Hcat.
      rewrite (skipn_slices s start (m_start m) (m_end m)) by lia.
      rewrite !filter_app.
      assert (F0 : filter not_space (slice s (m_start m) (m_end m)) = []).
      { apply (ClassFacts.filter_none not_space is_space); [|exact Sp].
        intros c Hc. unfold not_space. rewrite Hc. reflexivity. }
      rewrite F0. cbn [app]. f_equal.
      destruct (slice s start (m_start m)); simpl; rewrite ?app_nil_r; reflexivity.
    + apply Forall_app. split; [|exact Hall].
      destruct (slice s start (m_start m)); simpl; constructor; [discriminate|constructor].
  - change (PyStr (str (slice s start (length s))))
      with (token_of (slice s start (length s))).
    unfold omap; cbn [obind]. rewrite WhitespaceFacts.filter_truthy_token.
    cbn [filter]. rewrite app_nil_r.
    assert (Sl : slice s start (length s) = skipn start s).
    { unfold slice. apply firstn_all2. rewrite length_skipn. lia. }
    rewrite Sl. exists (one_word (skipn start s)). split; [reflexivity|]. split.
    + destruct (skipn start s); simpl; rewrite ?app_nil_r; reflexivity.
    + destruct (skipn start s); simpl; constructor; [discriminate|constructor].
Qed.

End BlanklineFacts.

(** X15.  The blank line preset drops whitespace only: no token is
    empty, and the tokens put together hold, apart from whitespace, the
    characters of the text, in their order. *)
Theorem blankline_drops_whitespace_only (txt : string) :
  exists ws,
    fst (tokenize txt BlanklineTokenizer) = Returns (map token_of ws) /\
    Forall (fun w => w <> []) ws /\
    filter not_space (concat ws) = filter not_space (chars txt).
Proof.
  destruct (BlanklineFacts.blankline_split_loop (chars txt)
              (S (S (length (chars txt)))) 0) as (ws & H1 & H2 & H3); [lia|lia|].
  exists ws. split; [|split; [exact H3|exact H2]].
  unfold tokenize, bind, BlanklineTokenizer. rewrite check_regexp_fresh.
  cbn [getattr_pattern]. rewrite compile_blankline. cbn [_gaps _discard_empty fst].
  exact H1.
Qed.
